(** * weather-mcp-atomic: path extraction and the TTL cache

    A shallow embedding of

    - [AIProcessingTools.extract_data_fields]
      (atomic_tools/ai_processing.py), the dotted-path extractor, and
    - [InfrastructureTools.cache_data], [get_cached_data] and
      [clear_cache] (atomic_tools/infrastructure.py), the TTL cache kept
      in the module-level dictionary [_cache_store],

    together with the pieces of the Python runtime these functions call:
    [str.isdigit], [int], [str.split], the substring test [in], and the
    range checks of [datetime] and [timedelta].

    Conventions.
    - A Python [str] is a [string] whose characters are the code points
      0..255; text outside that range is not covered.
    - An exception is a value of [exn]; code that may raise returns a
      [result].
    - A [datetime] is a number of microseconds since 0001-01-01T00:00:00;
      each call of [datetime.now()] is an explicit clock reading.
    - Calls of [logger] change neither a returned value nor the store and
      are left out. *)

From Stdlib Require Import ZArith Ascii String SpecFloat.
From stdpp Require Import gmap strings list fin_maps.

#[local] Set Warnings "-register-all".
#[local] Open Scope Z_scope.

(** ** Exceptions and results *)

Inductive exn : Set := KeyError | IndexError | TypeError | ValueError | OverflowError.

Inductive result (A : Type) : Type :=
  | Ok (a : A)
  | Raise (e : exn).
Arguments Ok {A} a.
Arguments Raise {A} e.

(** Sequencing stops at the first exception; with these instances the
    notation [x ← r; k] reads as a Python statement sequence. *)
#[global] Instance result_ret : MRet result := λ A a, Ok a.
#[global] Instance result_bind : MBind result := λ A B k r,
  match r with
  | Ok a => k a
  | Raise e => Raise e
  end.

Definition is_ok {A : Type} (r : result A) : bool :=
  match r with Ok _ => true | Raise _ => false end.

(** ** The string operations of the runtime *)

Module PyStr.

(** Characters with Numeric_Type=Decimal: below 256 these are "0".."9". *)
Definition is_decimal (c : ascii) : bool :=
  (48 <=? nat_of_ascii c)%nat && (nat_of_ascii c <=? 57)%nat.

(** Characters with Numeric_Type=Digit that are not decimal: below 256
    these are the superscripts U+00B2, U+00B3 and U+00B9. *)
Definition is_superscript (c : ascii) : bool :=
  (nat_of_ascii c =? 178)%nat || (nat_of_ascii c =? 179)%nat
  || (nat_of_ascii c =? 185)%nat.

(** What [str.isdigit] tests on one character. *)
Definition is_digit (c : ascii) : bool := is_decimal c || is_superscript c.

Fixpoint all_chars (p : ascii → bool) (s : string) : bool :=
  match s with
  | EmptyString => true
  | String c s' => p c && all_chars p s'
  end.

(** [s.isdigit()]: every character is a digit and there is at least one. *)
Definition isdigit (s : string) : bool :=
  match s with
  | EmptyString => false
  | _ => all_chars is_digit s
  end.

Definition digit_value (c : ascii) : Z := Z.of_nat (nat_of_ascii c) - 48.

Fixpoint int_from (acc : Z) (s : string) : result Z :=
  match s with
  | EmptyString => Ok acc
  | String c s' =>
      if is_decimal c then int_from (10 * acc + digit_value c) s'
      else Raise ValueError
  end.

(** [sys.get_int_max_str_digits()] as the interpreter starts with it:
    the most digits, leading zeros counted, that [int] converts. *)
Definition int_max_str_digits : nat := 4300.

(** [int(s)] on the strings the extractor hands to it, those without
    sign, blank or underscore: the value of a non-empty decimal numeral
    of at most [int_max_str_digits] digits, [ValueError] for anything
    else.  Python integers are unbounded. *)
Definition int (s : string) : result Z :=
  match s with
  | EmptyString => Raise ValueError
  | _ =>
      if (int_max_str_digits <? String.length s)%nat then Raise ValueError
      else int_from 0 s
  end.

(** [s.split(sep)] for a one-character separator. *)
Fixpoint split (sep : ascii) (s : string) : list string :=
  match s with
  | EmptyString => [EmptyString]
  | String c s' =>
      if Ascii.eqb c sep then EmptyString :: split sep s'
      else match split sep s' with
           | seg :: rest => String c seg :: rest
           | [] => [String c EmptyString]
           end
  end.

Fixpoint join (sep : ascii) (l : list string) : string :=
  match l with
  | [] => EmptyString
  | [s] => s
  | s :: l' => (s ++ String sep (join sep l'))%string
  end.

Fixpoint has_char (c : ascii) (s : string) : bool :=
  match s with
  | EmptyString => false
  | String c' s' => Ascii.eqb c' c || has_char c s'
  end.

Fixpoint startswith (p s : string) : bool :=
  match p, s with
  | EmptyString, _ => true
  | String a p', String b s' => Ascii.eqb a b && startswith p' s'
  | String _ _, EmptyString => false
  end.

(** [p] occurs in [s] as a contiguous substring. *)
Definition substring (p s : string) : Prop :=
  ∃ pre post, s = (pre ++ p ++ post)%string.

(** [p in s], the test Python makes for it. *)
Fixpoint contains (p s : string) : bool :=
  startswith p s ||
  match s with
  | EmptyString => false
  | String _ s' => contains p s'
  end.

End PyStr.

(** ** Structured values *)

(** The JSON-shaped values the tools exchange: [None], [bool], [int],
    [float], [str], [list] and [dict] with string keys. *)
Inductive value : Type :=
  | VNone
  | VBool (b : bool)
  | VInt (z : Z)
  | VFloat (f : spec_float)
  | VStr (s : string)
  | VList (l : list value)
  | VDict (d : gmap string value).

(** ** atomic_tools/ai_processing.py *)

Module Extract.

(** The body of [for part in path_parts]: one step of the navigation. *)
Definition step (current_value : value) (part : string) : result value :=
  if PyStr.isdigit part then
    index ← PyStr.int part;
    match current_value with
    | VList l =>
        if (0 <=? index) && (index <? Z.of_nat (List.length l)) then
          match l !! Z.to_nat index with
          | Some v => Ok v
          | None => Raise IndexError
          end
        else Raise IndexError
    | _ => Raise IndexError
    end
  else
    match current_value with
    | VDict d =>
        match d !! part with
        | Some v => Ok v
        | None => Raise KeyError
        end
    | _ => Raise KeyError
    end.

(** The loop over [path_parts], left to right, stopping at the first
    exception. *)
Fixpoint walk (current_value : value) (path_parts : list string) : result value :=
  match path_parts with
  | [] => Ok current_value
  | part :: rest => v ← step current_value part; walk v rest
  end.

Definition navigate (source_data : value) (source_path : string) : result value :=
  walk source_data (PyStr.split "." source_path).

(** The inner [try]: [except (KeyError, IndexError, TypeError)] binds
    the field to [None]; any other exception leaves the handler. *)
Definition extract_field (source_data : value) (source_path : string) : result value :=
  match navigate source_data source_path with
  | Ok v => Ok v
  | Raise KeyError | Raise IndexError | Raise TypeError => Ok VNone
  | Raise e => Raise e
  end.

(** The loop over [field_mapping.items()], threading [extracted]. *)
Fixpoint extract_items (source_data : value) (items : list (string * string))
    (extracted : gmap string value) : result (gmap string value) :=
  match items with
  | [] => Ok extracted
  | (new_field, source_path) :: rest =>
      v ← extract_field source_data source_path;
      extract_items source_data rest (<[new_field := v]> extracted)
  end.

(** [extract_data_fields]; the outer [except Exception] logs and
    re-raises, so it passes every exception on unchanged. *)
Definition extract_data_fields (source_data : value)
    (field_mapping : gmap string string) : result (gmap string value) :=
  extract_items source_data (map_to_list field_mapping) ∅.

(** The exceptions the inner handler turns into [None]. *)
Definition lookup_error (e : exn) : bool :=
  match e with KeyError | IndexError | TypeError => true | _ => false end.

(** What a field is bound to when the whole call returns. *)
Definition field_value (source_data : value) (source_path : string) : value :=
  match extract_field source_data source_path with
  | Ok v => v
  | Raise _ => VNone
  end.

(** *** The resolution rule in the words of the specification *)

(** "The segment parses as a non-negative integer [i]": a non-empty
    numeral of the decimal digits "0".."9". *)
Definition parse_index (segment : string) : option Z :=
  match segment with
  | EmptyString => None
  | _ =>
      if PyStr.all_chars PyStr.is_decimal segment then
        match PyStr.int_from 0 segment with
        | Ok i => Some i
        | Raise _ => None
        end
      else None
  end.

Definition spec_step (current : value) (segment : string) : option value :=
  match parse_index segment with
  | Some i =>
      match current with
      | VList l =>
          if (0 <=? i) && (i <? Z.of_nat (List.length l)) then l !! Z.to_nat i else None
      | _ => None
      end
  | None =>
      match current with
      | VDict d => d !! segment
      | _ => None
      end
  end.

Fixpoint spec_walk (current : value) (segments : list string) : option value :=
  match segments with
  | [] => Some current
  | segment :: rest =>
      match spec_step current segment with
      | Some v => spec_walk v rest
      | None => None
      end
  end.

Definition spec_resolve (source : value) (path : string) : option value :=
  spec_walk source (PyStr.split "." path).

(** One entry per field of the mapping, null where resolution fails. *)
Definition spec_extract (source : value) (mapping : gmap string string)
    : gmap string value :=
  (λ path, default VNone (spec_resolve source path)) <$> mapping.

(** A path none of whose segments is a digit string that [int]
    rejects: each digit string is a decimal numeral of at most
    [int_max_str_digits] digits. *)
Definition decimal_segment (part : string) : bool :=
  negb (PyStr.isdigit part)
  || PyStr.all_chars PyStr.is_decimal part
     && (String.length part <=? PyStr.int_max_str_digits)%nat.

Definition decimal_path (source_path : string) : bool :=
  forallb decimal_segment (PyStr.split "." source_path).

End Extract.

(** ** atomic_tools/infrastructure.py *)

Module Cache.

(** *** [datetime] and [timedelta] *)

Definition us_per_second : Z := 1000000.
Definition seconds_per_day : Z := 86400.

(** [datetime.max], 9999-12-31T23:59:59.999999: the last microsecond of
    day 3652059 of the proleptic calendar; [datetime.min] is 0. *)
Definition datetime_max : Z := 3652059 * seconds_per_day * us_per_second - 1.

(** The largest number of days a [timedelta] holds. *)
Definition timedelta_max_days : Z := 999999999.

(** [timedelta(seconds=n)] for an integer [n], in microseconds. *)
Definition timedelta (seconds : Z) : result Z :=
  let days := seconds `div` seconds_per_day in
  if (- timedelta_max_days <=? days) && (days <=? timedelta_max_days)
  then Ok (seconds * us_per_second)
  else Raise OverflowError.

(** [t + d] for a datetime [t] and a timedelta [d]. *)
Definition datetime_add (t d : Z) : result Z :=
  if (0 <=? t + d) && (t + d <=? datetime_max) then Ok (t + d)
  else Raise OverflowError.

(** *** The store *)

(** The dictionary literal stored under a key. *)
Record entry : Type := Entry {
  data : value;
  expires_at : Z;
  cached_at : Z
}.

(** [del store[key]]. *)
Definition dict_del (key : string) (store : gmap string entry)
    : result (gmap string entry) :=
  match store !! key with
  | Some _ => Ok (delete key store)
  | None => Raise KeyError
  end.

(** *** The three operations

    Each takes the readings of [datetime.now()] it makes and the
    current [_cache_store], and returns its result with the new store. *)

(** [now] is the reading used for the expiry, [now'] the one stored as
    [cached_at].  An exception before the assignment leaves the store
    as it was and is turned into [False]. *)
Definition cache_data (now now' : Z) (key : string) (data : value)
    (ttl_seconds : Z) (store : gmap string entry)
    : bool * gmap string entry :=
  match d ← timedelta ttl_seconds; datetime_add now d with
  | Ok expiry_time =>
      (true, <[key := Entry data expiry_time now']> store)
  | Raise _ => (false, store)
  end.

(** The result tells a hit, [Some] of the cached data, from a miss or
    an expired entry, [None]; the caller receives [returned] of it. *)
Definition get_cached_data (now : Z) (key : string)
    (store : gmap string entry) : option value * gmap string entry :=
  match store !! key with
  | None => (None, store)
  | Some cache_entry =>
      if now >? expires_at cache_entry then
        match dict_del key store with
        | Ok store' => (None, store')
        | Raise _ => (None, store)
        end
      else (Some (data cache_entry), store)
  end.

(** What the caller of [get_cached_data] receives: Python's [None] for
    a miss or an expired entry and the cached data for a hit, which is
    [None] as well when the data cached is [None]. *)
Definition returned (r : option value) : value := default VNone r.

(** The entries a pattern selects: those whose key contains it. *)
Definition matches (pattern : string) (kv : string * entry) : Prop :=
  PyStr.contains pattern kv.1 = true.

#[global] Instance matches_dec pattern kv : Decision (matches pattern kv).
Proof. unfold matches. apply _. Defined.

(** [keys_to_remove], in the order the store lists its keys. *)
Definition keys_to_remove (pattern : string) (store : gmap string entry)
    : list string :=
  filter (λ k, PyStr.contains pattern k = true) (map_to_list store).*1.

(** [for key in keys_to_remove: del _cache_store[key]]; returns the
    store reached, also when a [del] raises. *)
Fixpoint del_keys (keys : list string) (store : gmap string entry)
    : result unit * gmap string entry :=
  match keys with
  | [] => (Ok (), store)
  | key :: rest =>
      match dict_del key store with
      | Ok store' => del_keys rest store'
      | Raise e => (Raise e, store)
      end
  end.

Definition clear_cache (pattern : option string) (store : gmap string entry)
    : nat * gmap string entry :=
  match pattern with
  | None => (size store, ∅)
  | Some p =>
      let keys := keys_to_remove p store in
      match del_keys keys store with
      | (Ok _, store') => (List.length keys, store')
      | (Raise _, store') => (0%nat, store')
      end
  end.

End Cache.

(** ** main.py: the tools as the host calls them *)

Module Host.

(** What outlives a call: the module-level [_cache_store] and the API
    key the [AIProcessingTools] instance keeps once fetched. *)
Record process : Type := Process {
  cache_store : gmap string Cache.entry;
  openai_key : option string
}.

Inductive call : Type :=
  | CacheData (key : string) (data : value) (ttl_seconds : Z)
  | GetCachedData (key : string)
  | ClearCache (pattern : option string)
  | ExtractDataFields (source_data : value) (field_mapping : gmap string string).

Inductive reply : Type :=
  | Cached (success : bool)
  | CachedValue (v : option value)
  | Cleared (count : nat)
  | Extracted (r : result (gmap string value)).

(** One tool call, with the clock readings [now] and [now'] it may
    make.  The wrappers of main.py pass arguments and results through:
    their handlers return the same failure value as the tool or
    re-raise. *)
Definition dispatch (now now' : Z) (c : call) (p : process) : reply * process :=
  match c with
  | CacheData key data ttl_seconds =>
      let '(ok, store) := Cache.cache_data now now' key data ttl_seconds (cache_store p) in
      (Cached ok, Process store (openai_key p))
  | GetCachedData key =>
      let '(v, store) := Cache.get_cached_data now key (cache_store p) in
      (CachedValue v, Process store (openai_key p))
  | ClearCache pattern =>
      let '(n, store) := Cache.clear_cache pattern (cache_store p) in
      (Cleared n, Process store (openai_key p))
  | ExtractDataFields source_data field_mapping =>
      (Extracted (Extract.extract_data_fields source_data field_mapping), p)
  end.

(** A sequence of calls, each with its clock readings. *)
Fixpoint dispatch_all (calls : list (Z * Z * call)) (p : process) : process :=
  match calls with
  | [] => p
  | (now, now', c) :: rest => dispatch_all rest (dispatch now now' c p).2
  end.

End Host.

(** ** Cache operations running concurrently

    The operations as sequences of accesses to the shared dictionary.
    Each access is one step, and steps of different operations interleave
    freely.  The cooperative schedule of the host, where an operation
    without [await] runs from start to end, is one of the interleavings. *)

Module Concurrent.
Import Cache.

Inductive response : Type :=
  | RBool (b : bool)
  | RValue (v : option value)
  | RCount (n : nat).

(** Where a running operation stands, with its local variables. *)
Inductive task : Type :=
  | PutStart (key : string) (data : value) (ttl_seconds : Z)
  | PutStore (key : string) (data : value) (expiry_time : Z)
  | GetStart (key : string)
  | GetFetch (key : string)
  | GetCheck (key : string) (cache_entry : entry)
  | GetDelete (key : string)
  | ClearStart (pattern : option string)
  | ClearAll (count : nat)
  | ClearLoop (count : nat) (keys : list string)
  | Done (r : response).

(** What an observer of the store can see happen. *)
Inductive event : Type :=
  | Stored (tid : nat) (key : string) (e : entry)
  | Hit (tid : nat) (key : string) (v : value) (expires : Z).

(** One step of operation [tid].  Clock readings are arbitrary.  The
    list comprehension of [clear_cache] may be overtaken by other
    operations, so it ends with some list of keys that contain the
    pattern or with the dictionary's [RuntimeError]; every exception
    ends the operation with the value its handler returns. *)
Inductive tstep (tid : nat) :
    gmap string entry → task → list event → gmap string entry → task → Prop :=
  | put_expiry store key data ttl now expiry_time :
      (d ← timedelta ttl; datetime_add now d) = Ok expiry_time →
      tstep tid store (PutStart key data ttl) [] store (PutStore key data expiry_time)
  | put_overflow store key data ttl now e :
      (d ← timedelta ttl; datetime_add now d) = Raise e →
      tstep tid store (PutStart key data ttl) [] store (Done (RBool false))
  | put_store store key data expiry_time now' :
      tstep tid store (PutStore key data expiry_time)
        [Stored tid key (Entry data expiry_time now')]
        (<[key := Entry data expiry_time now']> store) (Done (RBool true))
  | get_miss store key :
      store !! key = None →
      tstep tid store (GetStart key) [] store (Done (RValue None))
  | get_present store key :
      is_Some (store !! key) →
      tstep tid store (GetStart key) [] store (GetFetch key)
  | get_fetch store key cache_entry :
      store !! key = Some cache_entry →
      tstep tid store (GetFetch key) [] store (GetCheck key cache_entry)
  | get_fetch_gone store key :
      store !! key = None →
      tstep tid store (GetFetch key) [] store (Done (RValue None))
  | get_expired store key cache_entry now :
      now > expires_at cache_entry →
      tstep tid store (GetCheck key cache_entry) [] store (GetDelete key)
  | get_hit store key cache_entry now :
      ¬ now > expires_at cache_entry →
      tstep tid store (GetCheck key cache_entry)
        [Hit tid key (data cache_entry) (expires_at cache_entry)]
        store (Done (RValue (Some (data cache_entry))))
  | get_delete store key :
      tstep tid store (GetDelete key) [] (delete key store) (Done (RValue None))
  | clear_len store :
      tstep tid store (ClearStart None) [] store (ClearAll (size store))
  | clear_all store count :
      tstep tid store (ClearAll count) [] ∅ (Done (RCount count))
  | clear_keys store pattern keys :
      Forall (λ key, PyStr.contains pattern key = true) keys →
      tstep tid store (ClearStart (Some pattern)) [] store
        (ClearLoop (List.length keys) keys)
  | clear_keys_changed store pattern :
      tstep tid store (ClearStart (Some pattern)) [] store (Done (RCount 0))
  | clear_del store count key keys :
      is_Some (store !! key) →
      tstep tid store (ClearLoop count (key :: keys)) [] (delete key store)
        (ClearLoop count keys)
  | clear_del_gone store count key keys :
      store !! key = None →
      tstep tid store (ClearLoop count (key :: keys)) [] store (Done (RCount 0))
  | clear_end store count :
      tstep tid store (ClearLoop count []) [] store (Done (RCount count)).

(** The shared store and the operations in flight. *)
Record config : Type := Config {
  shared : gmap string entry;
  tasks : list task
}.

(** The host starts an operation, or one operation in flight makes a
    step. *)
Inductive step : config → list event → config → Prop :=
  | step_spawn store ts t :
      (∃ key data ttl, t = PutStart key data ttl)
      ∨ (∃ key, t = GetStart key) ∨ (∃ pattern, t = ClearStart pattern) →
      step (Config store ts) [] (Config store (ts ++ [t]))
  | step_task store ts tid t evs store' t' :
      ts !! tid = Some t →
      tstep tid store t evs store' t' →
      step (Config store ts) evs (Config store' (<[tid := t']> ts)).

(** A run from a configuration, with the events in the order they
    happened. *)
Inductive run : config → list event → config → Prop :=
  | run_nil c : run c [] c
  | run_step c evs c' evs' c'' :
      run c evs c' → step c' evs' c'' → run c (evs ++ evs') c''.

(** An operation running alone from its start to its end. *)
Inductive solo (tid : nat) :
    gmap string entry → task → list event → gmap string entry → task → Prop :=
  | solo_nil store t : solo tid store t [] store t
  | solo_step store t evs store' t' evs' store'' t'' :
      tstep tid store t evs store' t' →
      solo tid store' t' evs' store'' t'' →
      solo tid store t (evs ++ evs') store'' t''.

(** The entry [e] was put under [key] as a whole: by one [put] of the
    run so far, or before the run began. *)
Definition written (store0 : gmap string entry) (trace : list event)
    (key : string) (e : entry) : Prop :=
  (∃ tid, Stored tid key e ∈ trace) ∨ store0 !! key = Some e.

(** Every entry in the store, and every entry an operation in flight
    holds, was written as a whole. *)
Definition whole_entries (store0 : gmap string entry) (trace : list event)
    (c : config) : Prop :=
  (∀ key e, shared c !! key = Some e → written store0 trace key e)
  ∧ (∀ tid key e, tasks c !! tid = Some (GetCheck key e) →
       written store0 trace key e).

End Concurrent.

(** ** More of the string runtime: blanks, case and replacement *)

Module PyText.

(** [c.isspace()] below code point 256: tab to carriage return, the
    four separators U+001C..U+001F, space, U+0085 and U+00A0.  The class
    [\s] of [re] on [str] patterns is the same set. *)
Definition isspace (c : ascii) : bool :=
  let n := nat_of_ascii c in
  ((9 <=? n) && (n <=? 13) || (28 <=? n) && (n <=? 32)
   || (n =? 133) || (n =? 160))%nat.

(** [s.lstrip()], [s.rstrip()] and [s.strip()]. *)
Fixpoint lstrip (s : string) : string :=
  match s with
  | EmptyString => EmptyString
  | String c s' => if isspace c then lstrip s' else s
  end.

Fixpoint rstrip (s : string) : string :=
  match s with
  | EmptyString => EmptyString
  | String c s' =>
      match rstrip s' with
      | EmptyString => if isspace c then EmptyString else String c EmptyString
      | r => String c r
      end
  end.

Definition strip (s : string) : string := lstrip (rstrip s).

Definition is_upper (c : ascii) : bool :=
  (65 <=? nat_of_ascii c)%nat && (nat_of_ascii c <=? 90)%nat.
Definition is_lower (c : ascii) : bool :=
  (97 <=? nat_of_ascii c)%nat && (nat_of_ascii c <=? 122)%nat.

(** The cased characters and the case mappings of the ASCII letters.
    The strings the tools change the case of hold no other letters:
    they have passed a check of their characters first. *)
Definition is_cased (c : ascii) : bool := is_upper c || is_lower c.
Definition to_lower (c : ascii) : ascii :=
  if is_upper c then ascii_of_nat (nat_of_ascii c + 32) else c.
Definition to_upper (c : ascii) : ascii :=
  if is_lower c then ascii_of_nat (nat_of_ascii c - 32) else c.

Fixpoint lower (s : string) : string :=
  match s with
  | EmptyString => EmptyString
  | String c s' => String (to_lower c) (lower s')
  end.

(** [s.title()]: a character after a cased one is lowered, any other is
    put in title case. *)
Fixpoint title_from (previous_is_cased : bool) (s : string) : string :=
  match s with
  | EmptyString => EmptyString
  | String c s' =>
      String (if previous_is_cased then to_lower c else to_upper c)
        (title_from (is_cased c) s')
  end.

Definition title (s : string) : string := title_from false s.

Fixpoint drop (n : nat) (s : string) : string :=
  match n, s with
  | O, _ => s
  | S _, EmptyString => EmptyString
  | S n', String _ s' => drop n' s'
  end.

(** [s.replace(old, new)] for a non-empty [old]: the occurrences of
    [old] are found from the left, without overlap; [skip] counts the
    characters of an occurrence still to pass over. *)
Fixpoint replace_from (skip : nat) (old new s : string) : string :=
  match s with
  | EmptyString => EmptyString
  | String c s' =>
      match skip with
      | S k => replace_from k old new s'
      | O =>
          if PyStr.startswith old s
          then (new ++ replace_from (String.length old - 1) old new s')%string
          else String c (replace_from 0 old new s')
      end
  end.

(** With an empty [old], [new] goes before every character and at the
    end. *)
Fixpoint insert_around (new s : string) : string :=
  match s with
  | EmptyString => new
  | String c s' => (new ++ String c (insert_around new s'))%string
  end.

Definition replace (old new s : string) : string :=
  match old with
  | EmptyString => insert_around new s
  | _ => replace_from 0 old new s
  end.

End PyText.

(** ** atomic_tools/http_api.py: [validate_api_response] *)

Module HttpApi.

Inductive py_type : Set := NoneType | Bool | Int | Float | Str | List | Dict.

Definition type_of (v : value) : py_type :=
  match v with
  | VNone => NoneType
  | VBool _ => Bool
  | VInt _ => Int
  | VFloat _ => Float
  | VStr _ => Str
  | VList _ => List
  | VDict _ => Dict
  end.

(** The two error texts, by what their f-strings render:
    "Expected dict, got <type>" and "Missing required fields: <list>". *)
Inductive message : Type :=
  | Expected_dict_got (t : py_type)
  | Missing_required_fields (fields : list string).

Record validation : Type := Validation {
  valid : bool;
  missing_fields : list string;
  errors : list message
}.

(** The loop over [field_parts] with its [break]: true when the field
    is appended to [missing_fields]. *)
Fixpoint nested_missing (current_data : value) (field_parts : list string) : bool :=
  match field_parts with
  | [] => false
  | part :: rest =>
      match current_data with
      | VDict d =>
          match d !! part with
          | Some v => nested_missing v rest
          | None => true
          end
      | _ => true
      end
  end.

(** The body of [for field in required_fields]. *)
Definition field_missing (response_data : gmap string value) (field : string) : bool :=
  if PyStr.contains "." field then
    nested_missing (VDict response_data) (PyStr.split "." field)
  else
    match response_data !! field with
    | Some _ => false
    | None => true
    end.

(** The loop over [required_fields], appending to [missing_fields]. *)
Definition check_required (response_data : gmap string value)
    (required_fields : list string) : list string :=
  foldl (λ missing field,
           if field_missing response_data field then missing ++ [field] else missing)
    [] required_fields.

Definition validate_api_response (response_data : value)
    (required_fields : list string) (response_type : string) : validation :=
  match response_data with
  | VDict d =>
      match check_required d required_fields with
      | [] => Validation true [] []
      | missing => Validation false missing [Missing_required_fields missing]
      end
  | _ =>
      if String.eqb response_type "json"
      then Validation false [] [Expected_dict_got (type_of response_data)]
      else Validation true [] []
  end.

End HttpApi.

(** ** atomic_tools/weather_domain.py: [validate_location] *)

Module WeatherDomain.

Record location_validation : Type := LocationValidation {
  valid : bool;
  standardized : string;
  suggestions : list string
}.

(** The character class of the check, [[a-zA-Z0-9\s\-',\.]]. *)
Definition location_char (c : ascii) : bool :=
  PyText.is_cased c || PyStr.is_decimal c || PyText.isspace c
  || Ascii.eqb c "-" || Ascii.eqb c "'" || Ascii.eqb c "," || Ascii.eqb c ".".

(** [re.match(r"^[a-zA-Z0-9\s\-',\.]+$", s)]: the class may take a final
    newline itself, so the match is of the whole of a non-empty [s]. *)
Definition location_match (s : string) : bool :=
  match s with
  | EmptyString => false
  | _ => PyStr.all_chars location_char s
  end.

(** The dictionary [abbreviations], in the order it is written. *)
Definition abbreviations : list (string * string) :=
  [(" Usa", " USA"); (" Uk", " UK"); (" Us", " US"); ("Nyc", "NYC"); ("La ", "LA ")].

(** [standardized] after [.title()] and the loop over [abbreviations]. *)
Definition standardize (cleaned_location : string) : string :=
  foldl (λ standardized ar, PyText.replace ar.1 ar.2 standardized)
    (PyText.title cleaned_location) abbreviations.

Definition validate_location (location : string) : location_validation :=
  match location with
  | EmptyString =>
      LocationValidation false EmptyString ["Please provide a valid location name"]
  | _ =>
      let cleaned_location := PyText.strip location in
      if (String.length cleaned_location <? 2)%nat then
        LocationValidation false EmptyString ["Location name too short"]
      else if (100 <? String.length cleaned_location)%nat then
        LocationValidation false EmptyString ["Location name too long"]
      else if negb (location_match cleaned_location) then
        LocationValidation false EmptyString ["Location contains invalid characters"]
      else LocationValidation true (standardize cleaned_location) []
  end.

End WeatherDomain.

(** ** Secrets: [get_secret] and the cached OpenAI key *)

Module Secrets.

(** security/allowlists.py *)
Definition ALLOWED_SECRETS : list string := ["OWM-API-KEY"; "OPENAI-API-KEY"].

Inductive secret_result : Type :=
  | Secret (secret_value : string)
  | RaiseSecurityError
  | RaiseRuntimeError.

(** [InfrastructureTools.get_secret].  The Key Vault service is not
    part of these sources; its answer to a name is the argument
    [key_vault], [None] standing for any exception it raises. *)
Definition get_secret (key_vault : string → option string) (secret_name : string)
    : secret_result :=
  if bool_decide (secret_name ∈ ALLOWED_SECRETS) then
    match key_vault secret_name with
    | Some secret_value => Secret secret_value
    | None => RaiseRuntimeError
    end
  else RaiseSecurityError.

(** [AIProcessingTools._get_openai_key]: the key is fetched when the
    instance holds none and kept from then on; an exception of the
    service leaves the instance as it was and is returned as [None]. *)
Definition _get_openai_key (key_vault : string → option string) (p : Host.process)
    : option string * Host.process :=
  match Host.openai_key p with
  | Some k => (Some k, p)
  | None =>
      match key_vault "OPENAI-API-KEY" with
      | Some k => (Some k, Host.Process (Host.cache_store p) (Some k))
      | None => (None, p)
      end
  end.

End Secrets.

(** ** What a call can reach *)

Module Footprint.

(** Whether a tool call can change the cache entry under [key]: a put
    or a get names the key, a clear has a pattern the key contains or
    none at all. *)
Definition touches (key : string) (c : Host.call) : bool :=
  match c with
  | Host.CacheData key' _ _ => bool_decide (key' = key)
  | Host.GetCachedData key' => bool_decide (key' = key)
  | Host.ClearCache None => true
  | Host.ClearCache (Some pattern) => PyStr.contains pattern key
  | Host.ExtractDataFields _ _ => false
  end.

(** A structured value with nothing inside: a scalar, an empty
    sequence or an empty map. *)
Definition childless (v : value) : Prop :=
  match v with
  | VList l => l = []
  | VDict d => d = ∅
  | _ => True
  end.

End Footprint.

(** ** Worked inputs *)

Module Samples.

(** The float 20.5 as a binary64: 5770237022568448 * 2^-48. *)
Definition f20_5 : spec_float := S754_finite false 5770237022568448 (-48).

Definition paris : value :=
  VDict (<["main" := VDict {["temp" := VFloat f20_5]}]>
        (<["weather" := VList [VDict {["description" := VStr "sunny"]}]]>
        {["name" := VStr "Paris"]})).

Definition paris_mapping : gmap string string :=
  <["temperature" := "main.temp"]>
  (<["condition" := "weather.0.description"]>
  {["city" := "name"]}).

Definition paris_result : gmap string value :=
  <["temperature" := VFloat f20_5]>
  (<["condition" := VStr "sunny"]>
  {["city" := VStr "Paris"]}).

(** The one-character string U+00B2, SUPERSCRIPT TWO. *)
Definition sup2 : string := String (ascii_of_nat 178) EmptyString.

Definition main_sup2 : string := ("main." ++ sup2)%string.
Definition weather_sup2 : string := ("weather." ++ sup2)%string.

Definition city_and_sup2 : gmap string string :=
  <["city" := "name"]> {["x" := weather_sup2]}.

Definition zero_key : value := VDict {["0" := VStr "a"]}.

(** 2026-11-04T00:00:00, day 739923 after 0001-01-01. *)
Definition t2026 : Z := 739923 * 86400 * 1000000.

Definition three_keys : gmap string Cache.entry :=
  <["weather_paris" := Cache.Entry (VInt 1) t2026 t2026]>
  (<["weather_london" := Cache.Entry (VInt 2) t2026 t2026]>
  {["forecast_paris" := Cache.Entry (VInt 3) t2026 t2026]}).

(** One [put] running to its end, then one [get] that hits. *)
Definition k_expiry : Z := t2026 + 60 * 1000000.
Definition k_entry : Cache.entry := Cache.Entry (VInt 1) k_expiry t2026.
Definition put_then_get : list Concurrent.event :=
  [Concurrent.Stored 0 "k" k_entry; Concurrent.Hit 1 "k" (VInt 1) k_expiry].
Definition put_then_get_end : Concurrent.config :=
  Concurrent.Config {["k" := k_entry]}
    [Concurrent.Done (Concurrent.RBool true);
     Concurrent.Done (Concurrent.RValue (Some (VInt 1)))].

End Samples.

(** * Properties *)

(** ** The string operations *)

Section PyStrFacts.
Import PyStr.

Lemma split_nonempty sep s : split sep s ≠ [].
Proof. destruct s as [|c s]; simpl; [done|]. by repeat case_match. Qed.

(** Joining the segments with the separator gives the string back. *)
Lemma join_split sep s : join sep (split sep s) = s.
Proof.
  induction s as [|c s IH]; simpl; [done|].
  destruct (Ascii.eqb_spec c sep) as [->|Hne].
  - pose proof (split_nonempty sep s).
    destruct (split sep s) as [|seg rest] eqn:E; [done|].
    simpl in *. by rewrite IH.
  - destruct (split sep s) as [|seg rest] eqn:E; simpl in *.
    + by rewrite <- IH.
    + destruct rest; simpl in *; by rewrite <- IH.
Qed.

(** No segment contains the separator. *)
Lemma split_no_sep sep s seg : seg ∈ split sep s → has_char sep seg = false.
Proof.
  revert seg. induction s as [|c s IH]; simpl; intros seg Hin.
  - apply list_elem_of_singleton in Hin as ->. done.
  - destruct (Ascii.eqb_spec c sep) as [->|Hne].
    + apply elem_of_cons in Hin as [->|Hin]; [done|by apply IH].
    + destruct (split sep s) as [|seg' rest] eqn:E.
      * apply list_elem_of_singleton in Hin as ->. simpl.
        by rewrite (proj2 (Ascii.eqb_neq c sep) Hne).
      * apply elem_of_cons in Hin as [->|Hin].
        -- simpl. rewrite (proj2 (Ascii.eqb_neq c sep) Hne). simpl.
           apply IH. by left.
        -- apply IH. by right.
Qed.

Lemma startswith_spec p s : startswith p s = true ↔ ∃ post, s = (p ++ post)%string.
Proof.
  revert s. induction p as [|a p IH]; intros s; simpl.
  - split; [intros _; by exists s|done].
  - destruct s as [|b s].
    + split; [done|]. by intros [post ?].
    + rewrite andb_true_iff, IH. split.
      * intros [->%Ascii.eqb_eq [post ->]]. by exists post.
      * intros [post [= -> ->]]. split; [apply Ascii.eqb_refl|by exists post].
Qed.

(** [contains] is substring containment. *)
Lemma contains_spec p s : contains p s = true ↔ substring p s.
Proof.
  unfold substring.
  induction s as [|c s IH].
  - simpl. rewrite orb_false_r, startswith_spec. split.
    + intros [post ->]. by exists EmptyString, post.
    + intros [[|? ?] [post H]]; [by exists post|done].
  - cbn [contains]. rewrite orb_true_iff, startswith_spec, IH. split.
    + intros [[post ->]|(pre & post & ->)].
      * by exists EmptyString, post.
      * by exists (String c pre), post.
    + intros [[|a pre] [post H]].
      * left. by exists post.
      * right. injection H as -> ->. by exists pre, post.
Qed.

(** Every string contains the empty string. *)
Lemma contains_empty s : contains EmptyString s = true.
Proof. by destruct s. Qed.

Lemma is_decimal_is_digit c : is_decimal c = true → is_digit c = true.
Proof. unfold is_digit. by intros ->. Qed.

Lemma all_chars_impl (p q : ascii → bool) s :
  (∀ c, p c = true → q c = true) → all_chars p s = true → all_chars q s = true.
Proof.
  intros Hpq. induction s as [|c s IH]; simpl; [done|].
  rewrite !andb_true_iff. intros [? ?]. auto.
Qed.

Lemma digit_value_nonneg c : is_decimal c = true → 0 ≤ digit_value c.
Proof.
  unfold is_decimal, digit_value. rewrite andb_true_iff, !Nat.leb_le. lia.
Qed.

(** [int] returns a non-negative number on a decimal numeral ... *)
Lemma int_from_decimal acc s :
  all_chars is_decimal s = true → 0 ≤ acc →
  ∃ i, int_from acc s = Ok i ∧ 0 ≤ i.
Proof.
  revert acc. induction s as [|c s IH]; simpl; intros acc Hall Hacc.
  - by exists acc.
  - apply andb_true_iff in Hall as [Hc Hall]. rewrite Hc.
    apply IH; [done|]. pose proof (digit_value_nonneg c Hc). lia.
Qed.

(** ... and raises [ValueError] on anything else. *)
Lemma int_from_not_decimal acc s :
  all_chars is_decimal s = false → int_from acc s = Raise ValueError.
Proof.
  revert acc. induction s as [|c s IH]; simpl; intros acc Hall; [done|].
  destruct (is_decimal c); [by apply IH|done].
Qed.

Lemma int_raise s e : int s = Raise e → e = ValueError.
Proof.
  destruct s as [|c s]; [by intros [= <-]|]. unfold int.
  destruct (int_max_str_digits <? _)%nat; [by intros [= <-]|].
  destruct (all_chars is_decimal (String c s)) eqn:Hall.
  - destruct (int_from_decimal 0 (String c s) Hall) as (i & Hi & _); [done|].
    congruence.
  - rewrite int_from_not_decimal by done. by intros [= <-].
Qed.

(** [int] gives a decimal numeral within the cap its value, which is
    not negative. *)
Lemma int_decimal s :
  s ≠ EmptyString → all_chars is_decimal s = true →
  (String.length s ≤ int_max_str_digits)%nat →
  ∃ i, int s = Ok i ∧ int_from 0 s = Ok i ∧ 0 ≤ i.
Proof.
  intros Hne Hall Hlen. destruct s as [|c s]; [done|]. unfold int.
  rewrite (proj2 (Nat.ltb_ge _ _) Hlen).
  destruct (int_from_decimal 0 (String c s) Hall) as (i & Hi & Hpos); [done|].
  by exists i.
Qed.

Lemma int_from_nonneg acc s i : int_from acc s = Ok i → 0 ≤ acc → 0 ≤ i.
Proof.
  revert acc. induction s as [|c s IH]; simpl; intros acc Hi Hacc.
  - by injection Hi as <-.
  - destruct (is_decimal c) eqn:Hc; [|done].
    apply (IH _ Hi). pose proof (digit_value_nonneg c Hc). lia.
Qed.

(** What [int] returns is not negative. *)
Lemma int_nonneg s i : int s = Ok i → 0 ≤ i.
Proof.
  destruct s as [|c s]; [done|]. unfold int.
  destruct (int_max_str_digits <? _)%nat; [done|].
  intros Hi. by apply (int_from_nonneg 0 _ _ Hi).
Qed.

(** A numeral longer than the cap is rejected. *)
Lemma int_too_long s :
  (int_max_str_digits < String.length s)%nat → int s = Raise ValueError.
Proof.
  intros Hlen. destruct s as [|c s]; [done|]. unfold int.
  by rewrite (proj2 (Nat.ltb_lt _ _) Hlen).
Qed.

End PyStrFacts.

(** ** The extractor *)

Section ExtractFacts.
Import Extract.

(** On a segment that is not a digit string the specification's rule
    reads it as a key; on a decimal numeral it reads it as an index. *)
Lemma parse_index_not_digit part :
  PyStr.isdigit part = false → parse_index part = None.
Proof.
  destruct part as [|c s]; [done|]. unfold PyStr.isdigit, parse_index.
  intros Hnd. destruct (PyStr.all_chars PyStr.is_decimal (String c s)) eqn:E; [|done].
  apply (all_chars_impl _ PyStr.is_digit) in E; [congruence|].
  apply is_decimal_is_digit.
Qed.

Lemma parse_index_decimal part :
  PyStr.isdigit part = true → PyStr.all_chars PyStr.is_decimal part = true →
  (String.length part ≤ PyStr.int_max_str_digits)%nat →
  ∃ i, parse_index part = Some i ∧ PyStr.int part = Ok i.
Proof.
  intros Hd Hall Hlen. assert (part ≠ EmptyString) as Hne by (by intros ->).
  destruct (int_decimal part Hne Hall Hlen) as (i & Hint & Hfrom & _).
  exists i. split; [|done]. unfold parse_index.
  destruct part; [done|]. by rewrite Hall, Hfrom.
Qed.

(** One step of the code against one step of the specification. *)
Lemma step_refines current_value part :
  decimal_segment part = true →
  match spec_step current_value part with
  | Some v => step current_value part = Ok v
  | None => ∃ e, step current_value part = Raise e ∧ lookup_error e = true
  end.
Proof.
  unfold decimal_segment, step, spec_step. intros Hseg.
  destruct (PyStr.isdigit part) eqn:Hd; simpl in Hseg.
  - apply andb_true_iff in Hseg as [Hdec Hlen%Nat.leb_le].
    destruct (parse_index_decimal part Hd Hdec Hlen) as (i & -> & ->). simpl.
    destruct current_value; try by (exists IndexError).
    destruct (_ && _); [|by exists IndexError].
    destruct (l !! Z.to_nat i); [done|by exists IndexError].
  - rewrite (parse_index_not_digit part Hd).
    destruct current_value; try by (exists KeyError).
    destruct (d !! part); [done|by exists KeyError].
Qed.

Lemma walk_refines current_value path_parts :
  forallb decimal_segment path_parts = true →
  match spec_walk current_value path_parts with
  | Some v => walk current_value path_parts = Ok v
  | None => ∃ e, walk current_value path_parts = Raise e ∧ lookup_error e = true
  end.
Proof.
  revert current_value.
  induction path_parts as [|part rest IH]; simpl; intros cur Hall; [done|].
  apply andb_true_iff in Hall as [Hpart Hrest].
  pose proof (step_refines cur part Hpart) as Hstep.
  destruct (spec_step cur part) as [v|].
  - rewrite Hstep. simpl. by apply IH.
  - destruct Hstep as (e & -> & He). by exists e.
Qed.

(** On a path without a digit string that [int] rejects, the inner
    [try] binds the field to what the specification resolves, or to
    [None]. *)
Lemma extract_field_refines source_data source_path :
  decimal_path source_path = true →
  extract_field source_data source_path
  = Ok (default VNone (spec_resolve source_data source_path)).
Proof.
  unfold decimal_path, extract_field, navigate, spec_resolve. intros Hpath.
  pose proof (walk_refines source_data _ Hpath) as Hwalk.
  destruct (spec_walk _ _) as [v|]; simpl.
  - by rewrite Hwalk.
  - destruct Hwalk as (e & -> & He). by destruct e.
Qed.

(** The inner handler lets only [ValueError] through. *)
Lemma step_raise current_value part e :
  step current_value part = Raise e →
  e = KeyError ∨ e = IndexError ∨ e = ValueError.
Proof.
  unfold step. destruct (PyStr.isdigit part).
  - destruct (PyStr.int part) as [i|e'] eqn:Hint; simpl.
    + repeat case_match; naive_solver.
    + intros [= <-]. apply int_raise in Hint. auto.
  - repeat case_match; naive_solver.
Qed.

Lemma walk_raise current_value path_parts e :
  walk current_value path_parts = Raise e →
  e = KeyError ∨ e = IndexError ∨ e = ValueError.
Proof.
  revert current_value.
  induction path_parts as [|part rest IH]; simpl; intros cur; [done|].
  destruct (step cur part) as [v|e'] eqn:Hstep; simpl; [apply IH|].
  intros [= <-]. by eapply step_raise.
Qed.

Lemma extract_field_raise source_data source_path e :
  extract_field source_data source_path = Raise e → e = ValueError.
Proof.
  unfold extract_field, navigate.
  destruct (walk _ _) as [v|e'] eqn:Hwalk; [done|].
  destruct (walk_raise _ _ _ Hwalk) as [-> | [-> | ->]]; [done..|].
  by intros [= <-].
Qed.

(** The loop over the items: it returns when every field does, and
    then each assignment [extracted[new_field] = ...] has been made in
    turn. *)
Lemma extract_items_ok source_data items extracted :
  Forall (λ kp, is_ok (extract_field source_data kp.2) = true) items →
  extract_items source_data items extracted
  = Ok (foldl (λ m kp, <[kp.1 := field_value source_data kp.2]> m) extracted items).
Proof.
  revert extracted.
  induction items as [|[new_field source_path] rest IH]; intros acc Hall; [done|].
  apply Forall_cons in Hall as [Hhd Hrest]. simpl in *.
  unfold field_value.
  destruct (extract_field source_data source_path) as [v|e]; [|done].
  simpl. by rewrite IH.
Qed.

(** One field that raises makes the whole call raise [ValueError]. *)
Lemma extract_items_raise source_data items extracted :
  Exists (λ kp, is_ok (extract_field source_data kp.2) = false) items →
  extract_items source_data items extracted = Raise ValueError.
Proof.
  revert extracted.
  induction items as [|[new_field source_path] rest IH]; intros acc Hex.
  - by apply Exists_nil in Hex.
  - simpl in *.
    destruct (extract_field source_data source_path) as [v|e] eqn:Hf; simpl.
    + apply IH. apply Exists_cons in Hex as [Hhd|Hex]; [|exact Hex].
      simpl in Hhd. by rewrite Hf in Hhd.
    + by rewrite (extract_field_raise _ _ _ Hf).
Qed.

Lemma foldl_insert_lookup {A} (g : string → A) items (acc : gmap string A) k :
  NoDup items.*1 →
  foldl (λ m kp, <[kp.1 := g kp.2]> m) acc items !! k
  = match (list_to_map items : gmap string string) !! k with
    | Some p => Some (g p)
    | None => acc !! k
    end.
Proof.
  revert acc. induction items as [|[k0 p0] rest IH]; intros acc Hnd; [done|].
  apply NoDup_cons in Hnd as [Hk0 Hnd]. simpl in *.
  rewrite IH by done. destruct (decide (k0 = k)) as [->|Hne].
  - rewrite lookup_insert_eq.
    by rewrite (not_elem_of_list_to_map_1 _ _ Hk0), lookup_insert_eq.
  - by rewrite !lookup_insert_ne.
Qed.

Lemma extract_data_fields_ok source_data (field_mapping : gmap string string) :
  (∀ new_field source_path, field_mapping !! new_field = Some source_path →
     is_ok (extract_field source_data source_path) = true) →
  extract_data_fields source_data field_mapping
  = Ok (field_value source_data <$> field_mapping).
Proof.
  intros Hall. unfold extract_data_fields. rewrite extract_items_ok.
  - f_equal. apply map_eq. intros k.
    rewrite foldl_insert_lookup by apply NoDup_fst_map_to_list.
    rewrite list_to_map_to_list, lookup_fmap, lookup_empty.
    by destruct (field_mapping !! k).
  - apply Forall_forall. intros [k p] Hin%elem_of_map_to_list. by eapply Hall.
Qed.

Lemma extract_data_fields_raise source_data (field_mapping : gmap string string)
    new_field source_path :
  field_mapping !! new_field = Some source_path →
  is_ok (extract_field source_data source_path) = false →
  extract_data_fields source_data field_mapping = Raise ValueError.
Proof.
  intros Hin Hraise. apply extract_items_raise, Exists_exists.
  exists (new_field, source_path). split; [|done]. by apply elem_of_map_to_list.
Qed.

(** On mappings whose paths hold no digit string that [int] rejects,
    the code computes the extraction of the specification. *)
Lemma extract_refines source_data (field_mapping : gmap string string) :
  (∀ new_field source_path, field_mapping !! new_field = Some source_path →
     decimal_path source_path = true) →
  extract_data_fields source_data field_mapping
  = Ok (spec_extract source_data field_mapping).
Proof.
  intros Hdec. rewrite extract_data_fields_ok.
  - f_equal. unfold spec_extract. apply map_fmap_ext. intros k p Hk.
    unfold field_value. by rewrite extract_field_refines by eauto.
  - intros k p Hk. by rewrite extract_field_refines by eauto.
Qed.

Lemma walk_app current_value prefix suffix :
  walk current_value (prefix ++ suffix)
  = (v ← walk current_value prefix; walk v suffix).
Proof.
  revert current_value. induction prefix as [|part rest IH]; intros cur; [done|].
  simpl. destruct (step cur part) as [v|e]; simpl; [apply IH|done].
Qed.

(** A digit string against a map fails whatever the map holds. *)
Lemma step_digit_on_dict part d :
  PyStr.isdigit part = true →
  step (VDict d) part = Raise IndexError ∨ step (VDict d) part = Raise ValueError.
Proof.
  intros Hd. unfold step. rewrite Hd.
  destruct (PyStr.int part) as [i|e] eqn:Hint; simpl; [by left|].
  right. by rewrite (int_raise _ _ Hint).
Qed.

(** When a step on a digit string succeeds, the current value is a list
    and the step took its element at that index. *)
Lemma step_digit_ok part current_value v :
  PyStr.isdigit part = true → step current_value part = Ok v →
  ∃ l i, current_value = VList l ∧ PyStr.int part = Ok i
    ∧ 0 ≤ i < Z.of_nat (List.length l) ∧ l !! Z.to_nat i = Some v.
Proof.
  intros Hd. unfold step. rewrite Hd.
  destruct (PyStr.int part) as [i|e]; simpl; [|done].
  destruct current_value as [| | | | |l|]; try done.
  destruct (_ && _) eqn:Hrange; [|done].
  destruct (l !! Z.to_nat i) as [w|] eqn:Hl; [|done].
  intros [= <-]. exists l, i. repeat split; try done; lia.
Qed.

(** C1. The extractor splits each path on "." and walks the segments
    from the source: an integer segment indexes a sequence, any other
    segment is looked up in a map, and the field is bound to the value
    reached.  The code does so on the Paris example and on every path
    whose digit strings are decimal numerals that [int] converts
    ([paris_extracted], [extract_refines]), but not on every mapping:
    the segment U+00B2
    passes [isdigit], [int] rejects it, and the call raises [ValueError]
    where the rule, reading the segment as a key that the map lacks,
    binds the field to null. *)
Theorem superscript_segment_raises :
  spec_extract Samples.paris {["t" := Samples.main_sup2]} = {["t" := VNone]}
  ∧ extract_data_fields Samples.paris {["t" := Samples.main_sup2]}
    = Raise ValueError.
Proof. split; vm_compute; reflexivity. Qed.

(** A step on a digit string that [int] converts, against a sequence,
    is the lookup of the element at that index. *)
Lemma step_digit_on_list part l i :
  PyStr.isdigit part = true → PyStr.int part = Ok i →
  step (VList l) part
  = match l !! Z.to_nat i with
    | Some v => Ok v
    | None => Raise IndexError
    end.
Proof.
  intros Hd Hint. pose proof (int_nonneg _ _ Hint) as Hpos.
  unfold step. rewrite Hd, Hint. simpl.
  destruct (Z.ltb_spec i (Z.of_nat (List.length l))) as [Hlt|Hge].
  - rewrite (proj2 (Z.leb_le 0 i) Hpos). simpl.
    by destruct (l !! Z.to_nat i).
  - rewrite andb_false_r. rewrite (proj2 (lookup_ge_None l (Z.to_nat i))); [done|].
    lia.
Qed.

(** C2. A segment made of digits only is read as a sequence index and
    never as a map key.  Against a sequence, a step on a decimal numeral
    takes the element at the index the numeral denotes, and fails when
    the sequence has none there; a step on a digit string succeeds only
    in this way.  Against a map it fails whatever keys the map has, and
    so does every path that reaches a map before such a segment, while
    a path that reaches a sequence goes on from the indexed element;
    extracting path "0" from the source with the single key "0" binds
    the field to null. *)
Theorem digit_segment_never_a_key (part : string) (current_value : value) :
  PyStr.isdigit part = true →
  (∀ v, step current_value part = Ok v →
     ∃ l i, current_value = VList l ∧ PyStr.int part = Ok i
       ∧ 0 ≤ i < Z.of_nat (List.length l) ∧ l !! Z.to_nat i = Some v)
  ∧ (∀ d, current_value = VDict d → is_ok (step current_value part) = false)
  ∧ (∀ source_data prefix rest d,
       walk source_data prefix = Ok (VDict d) →
       is_ok (walk source_data (prefix ++ part :: rest)) = false)
  ∧ (∀ new_field,
       extract_data_fields Samples.zero_key {[new_field := "0"]}
       = Ok {[new_field := VNone]})
  ∧ (∀ l, PyStr.all_chars PyStr.is_decimal part = true →
       (String.length part ≤ PyStr.int_max_str_digits)%nat →
       ∃ i, PyStr.int part = Ok i ∧ 0 ≤ i
         ∧ step (VList l) part
           = match l !! Z.to_nat i with
             | Some v => Ok v
             | None => Raise IndexError
             end)
  ∧ (∀ l i v, PyStr.int part = Ok i → l !! Z.to_nat i = Some v →
       step (VList l) part = Ok v)
  ∧ (∀ source_data prefix rest l i v,
       walk source_data prefix = Ok (VList l) →
       PyStr.int part = Ok i → l !! Z.to_nat i = Some v →
       walk source_data (prefix ++ part :: rest) = walk v rest)
  ∧ (∀ new_field,
       extract_data_fields (VList [VStr "a"; VStr "b"]) {[new_field := "1"]}
       = Ok {[new_field := VStr "b"]}).
Proof.
  intros Hd. split; [|split; [|split; [|split; [|split; [|split; [|split]]]]]].
  - intros v Hv. by eapply step_digit_ok.
  - intros d ->. by destruct (step_digit_on_dict part d Hd) as [-> | ->].
  - intros src prefix rest d Hprefix. rewrite walk_app, Hprefix. simpl.
    by destruct (step_digit_on_dict part d Hd) as [-> | ->].
  - intros new_field. unfold extract_data_fields.
    rewrite map_to_list_singleton. simpl.
    replace (extract_field Samples.zero_key "0") with (Ok VNone : result value)
      by (vm_compute; reflexivity).
    simpl. by rewrite insert_empty.
  - intros l Hdec Hlen.
    assert (part ≠ EmptyString) as Hne by (by intros ->).
    destruct (int_decimal part Hne Hdec Hlen) as (i & Hint & _ & Hpos).
    exists i. split; [done|]. split; [done|]. by apply step_digit_on_list.
  - intros l i v Hint Hv. by rewrite (step_digit_on_list part l i Hd Hint), Hv.
  - intros src prefix rest l i v Hprefix Hint Hv. rewrite walk_app, Hprefix.
    simpl. by rewrite (step_digit_on_list part l i Hd Hint), Hv.
  - intros new_field. unfold extract_data_fields.
    rewrite map_to_list_singleton. simpl.
    replace (extract_field (VList [VStr "a"; VStr "b"]) "1")
      with (Ok (VStr "b") : result value) by (vm_compute; reflexivity).
    simpl. by rewrite insert_empty.
Qed.

Lemma digit_segment_never_a_key_witness :
  PyStr.isdigit "0" = true
  ∧ is_ok (step Samples.zero_key "0") = false
  ∧ step (VList [VStr "a"]) "0" = Ok (VStr "a").
Proof.
  split; [reflexivity|]. split.
  - exact (proj1 (proj2 (digit_segment_never_a_key "0" Samples.zero_key eq_refl))
             _ eq_refl).
  - exact (proj1 (proj2 (proj2 (proj2 (proj2 (proj2
             (digit_segment_never_a_key "0" Samples.zero_key eq_refl))))))
             [VStr "a"] 0 (VStr "a") eq_refl eq_refl).
Defined.

(** C3. The extractor never raises and always returns one entry per
    field, a failed path binding only its own field to null.  The code
    returns such a result whenever every field's navigation ends in a
    value, a [KeyError] or an [IndexError] ([extract_data_fields_ok]),
    but the handler of the inner [try] does not list [ValueError]: with
    the fields "city" and "x", the path of "x" holding the segment
    U+00B2, the call raises and the caller gets no entry at all, where
    the claim gives "city" its value and "x" null. *)
Theorem rejected_segment_aborts_all_fields :
  spec_extract Samples.paris Samples.city_and_sup2
  = <["city" := VStr "Paris"]> {["x" := VNone]}
  ∧ extract_field Samples.paris "name" = Ok (VStr "Paris")
  ∧ extract_data_fields Samples.paris Samples.city_and_sup2 = Raise ValueError.
Proof. repeat split; vm_compute; reflexivity. Qed.

End ExtractFacts.

(** The runtime operations on small inputs. *)
Example split_path :
  PyStr.split "." "weather.0.description" = ["weather"; "0"; "description"]
  ∧ PyStr.split "." "name" = ["name"]
  ∧ PyStr.split "." "a..b." = ["a"; ""; "b"; ""]
  ∧ PyStr.split "." "" = [""].
Proof. repeat split. Qed.

Example isdigit_and_int :
  PyStr.isdigit "0" = true ∧ PyStr.int "0" = Ok 0
  ∧ PyStr.isdigit "007" = true ∧ PyStr.int "007" = Ok 7
  ∧ PyStr.isdigit "" = false ∧ PyStr.isdigit "-1" = false
  ∧ PyStr.isdigit "1a" = false
  ∧ PyStr.isdigit Samples.sup2 = true ∧ PyStr.int Samples.sup2 = Raise ValueError.
Proof. repeat split. Qed.

(** [int] converts 4300 digits and rejects 4301, leading zeros
    counted. *)
Example int_digit_cap :
  is_ok (PyStr.int (string_of_list_ascii (replicate 4300 "1"%char))) = true
  ∧ PyStr.int (string_of_list_ascii (replicate 4301 "1"%char)) = Raise ValueError
  ∧ PyStr.int (string_of_list_ascii (replicate 4301 "0"%char)) = Raise ValueError.
Proof. repeat split; vm_compute; reflexivity. Qed.

Example contains_examples :
  PyStr.contains "weather_" "weather_paris" = true
  ∧ PyStr.contains "weather_" "forecast_paris" = false
  ∧ PyStr.contains "_par" "forecast_paris" = true
  ∧ PyStr.contains "" "" = true.
Proof. repeat split. Qed.

(** The nested-path example of the specification. *)
Example paris_extracted :
  Extract.extract_data_fields Samples.paris Samples.paris_mapping
  = Ok Samples.paris_result.
Proof. vm_compute. reflexivity. Qed.

(** A numeral longer than [int] converts aborts the call as the
    superscript does. *)
Example long_numeral_aborts :
  Extract.extract_data_fields (VList [])
    {["f" := string_of_list_ascii (replicate 4301 "1"%char)]}
  = Raise ValueError.
Proof. vm_compute. reflexivity. Qed.

(** A missing field is bound to null. *)
Example paris_pressure :
  Extract.extract_data_fields Samples.paris {["pressure" := "main.pressure"]}
  = Ok {["pressure" := VNone]}.
Proof. vm_compute. reflexivity. Qed.

(** Segments are taken as they are: an empty segment is the key "",
    and a negative number is a key, not an index. *)
Example empty_segment_is_key :
  Extract.navigate (VDict {["" := VInt 7]}) "" = Ok (VInt 7)
  ∧ Extract.navigate (VList [VInt 1]) "-1" = Raise KeyError
  ∧ Extract.navigate (VList [VInt 1; VInt 2]) "01" = Ok (VInt 2).
Proof. repeat split; vm_compute; reflexivity. Qed.

(** ** The cache *)

Section CacheFacts.
Import Cache.

Implicit Types store : gmap string entry.

(** The expiry time exists exactly when it is a datetime. *)
Lemma expiry_time_spec now ttl_seconds :
  0 ≤ now ≤ datetime_max →
  (d ← timedelta ttl_seconds; datetime_add now d)
  = if (0 <=? now + ttl_seconds * us_per_second)
       && (now + ttl_seconds * us_per_second <=? datetime_max)
    then Ok (now + ttl_seconds * us_per_second)
    else Raise OverflowError.
Proof.
  unfold timedelta, datetime_add, datetime_max, timedelta_max_days,
    seconds_per_day, us_per_second.
  intros Hnow. destruct (_ && _) eqn:Hdays; simpl; [done|].
  rewrite andb_false_iff, !Z.leb_gt in Hdays.
  rewrite (proj2 (andb_false_iff _ _)); [done|].
  rewrite !Z.leb_gt.
  pose proof (Z_div_mod_eq_full ttl_seconds 86400).
  pose proof (Z.mod_pos_bound ttl_seconds 86400).
  destruct Hdays; [left|right]; lia.
Qed.

Lemma cache_data_ok now now' key data ttl_seconds store :
  0 ≤ now ≤ datetime_max →
  0 ≤ now + ttl_seconds * us_per_second ≤ datetime_max →
  cache_data now now' key data ttl_seconds store
  = (true, <[key := Entry data (now + ttl_seconds * us_per_second) now']> store).
Proof.
  intros Hnow Hexp. unfold cache_data. rewrite expiry_time_spec by done.
  rewrite (proj2 (andb_true_iff _ _)); [done|]. rewrite !Z.leb_le. lia.
Qed.

Lemma cache_data_overflow now now' key data ttl_seconds store :
  0 ≤ now ≤ datetime_max →
  ¬ 0 ≤ now + ttl_seconds * us_per_second ≤ datetime_max →
  cache_data now now' key data ttl_seconds store = (false, store).
Proof.
  intros Hnow Hexp. unfold cache_data. rewrite expiry_time_spec by done.
  rewrite (proj2 (andb_false_iff _ _)); [done|]. rewrite !Z.leb_gt. lia.
Qed.

Lemma get_cached_data_hit now key store e :
  store !! key = Some e → now ≤ expires_at e →
  get_cached_data now key store = (Some (data e), store).
Proof.
  intros He Hnow. unfold get_cached_data. rewrite He.
  by rewrite Z.gtb_ltb, (proj2 (Z.ltb_ge _ _)) by lia.
Qed.

Lemma get_cached_data_expired now key store e :
  store !! key = Some e → now > expires_at e →
  get_cached_data now key store = (None, delete key store).
Proof.
  intros He Hnow. unfold get_cached_data, dict_del. rewrite He.
  by rewrite Z.gtb_ltb, (proj2 (Z.ltb_lt _ _)) by lia.
Qed.

Lemma get_cached_data_miss now key store :
  store !! key = None → get_cached_data now key store = (None, store).
Proof. intros He. unfold get_cached_data. by rewrite He. Qed.

Lemma keys_to_remove_elem pattern store k :
  k ∈ keys_to_remove pattern store
  ↔ PyStr.contains pattern k = true ∧ is_Some (store !! k).
Proof.
  unfold keys_to_remove. rewrite list_elem_of_filter, list_elem_of_fmap. split.
  - intros [Hc ([k' e] & -> & Hin%elem_of_map_to_list)]. eauto.
  - intros [Hc [e He]]. split; [done|].
    exists (k, e). split; [done|]. by apply elem_of_map_to_list.
Qed.

Lemma keys_to_remove_NoDup pattern store : NoDup (keys_to_remove pattern store).
Proof. apply NoDup_filter, NoDup_fst_map_to_list. Qed.

Lemma keys_to_remove_length pattern store :
  List.length (keys_to_remove pattern store) = size (filter (matches pattern) store).
Proof.
  rewrite <- length_map_to_list, <- (length_fmap fst).
  apply Permutation_length, NoDup_Permutation.
  - apply keys_to_remove_NoDup.
  - apply NoDup_fst_map_to_list.
  - intros k. rewrite keys_to_remove_elem, list_elem_of_fmap. split.
    + intros [Hc [e He]]. exists (k, e). split; [done|].
      apply elem_of_map_to_list, map_lookup_filter_Some. done.
    + intros ([k' e] & -> & Hin%elem_of_map_to_list%map_lookup_filter_Some).
      destruct Hin as [He Hc]. eauto.
Qed.

(** Deleting distinct keys that are all present raises nothing and
    removes exactly these keys. *)
Lemma del_keys_spec keys store :
  NoDup keys → (∀ k, k ∈ keys → is_Some (store !! k)) →
  ∃ store', del_keys keys store = (Ok (), store')
    ∧ ∀ k, store' !! k = if decide (k ∈ keys) then None else store !! k.
Proof.
  revert store. induction keys as [|key rest IH]; intros store Hnd Hin.
  - exists store. split; [done|]. intros k. by rewrite decide_False by set_solver.
  - apply NoDup_cons in Hnd as [Hkey Hnd].
    destruct (Hin key) as [e He]; [set_solver|].
    destruct (IH (delete key store) Hnd) as (store' & Hdel & Hlook).
    { intros k Hk. rewrite lookup_delete_ne by set_solver. apply Hin. set_solver. }
    exists store'. split.
    + simpl. unfold dict_del. by rewrite He.
    + intros k. rewrite Hlook. destruct (decide (k = key)) as [->|Hne].
      * rewrite decide_False by done. rewrite decide_True by set_solver.
        apply lookup_delete_eq.
      * rewrite lookup_delete_ne by done.
        destruct (decide (k ∈ rest)).
        -- by rewrite decide_True by set_solver.
        -- rewrite decide_False; [done|]. by intros [?|?]%elem_of_cons.
Qed.

(** Pattern clearing as a filter on the store. *)
Lemma clear_cache_pattern pattern store :
  clear_cache (Some pattern) store
  = (size (filter (matches pattern) store),
     filter (λ kv, ¬ matches pattern kv) store).
Proof.
  unfold clear_cache.
  destruct (del_keys_spec (keys_to_remove pattern store) store)
    as (store' & -> & Hlook).
  { apply keys_to_remove_NoDup. }
  { intros k Hk. by apply keys_to_remove_elem in Hk as [_ ?]. }
  rewrite keys_to_remove_length. f_equal. apply map_eq. intros k.
  rewrite Hlook. symmetry.
  destruct (decide (k ∈ keys_to_remove pattern store)) as [Hk|Hk].
  - apply map_lookup_filter_None. right. intros e He Hn.
    apply Hn. by apply keys_to_remove_elem in Hk as [Hc _].
  - destruct (store !! k) as [e|] eqn:He.
    + apply map_lookup_filter_Some. split; [done|].
      intros Hm. apply Hk, keys_to_remove_elem. split; [exact Hm|eauto].
    + apply map_lookup_filter_None. by left.
Qed.

(** C4 (as stated, refuted). With no advance of the clock between the
    two calls, [get] after [put("k", v, 0)] finds [now] equal to
    [expires_at], not greater, and returns the value. *)
Lemma zero_ttl_same_instant_hit :
  (get_cached_data Samples.t2026 "k"
     (cache_data Samples.t2026 Samples.t2026 "k" (VInt 1) 0 ∅).2).1
  = Some (VInt 1).
Proof. vm_compute. reflexivity. Qed.

(** C4 (amended). A [ttl_seconds] of 0 or less is accepted: [put]
    returns true and stores the entry with [expires_at] equal to the
    clock reading plus [ttl_seconds].  A following [get] returns absent,
    deleting the entry, exactly when its clock reading is later than
    [expires_at]: for a negative [ttl_seconds] at every reading from the
    put's on, for 0 once the clock has advanced; at a reading up to
    [expires_at] it returns the value. *)
Theorem nonpositive_ttl_expires_once_clock_passes
    (now now' t : Z) (key : string) (v : value) (ttl_seconds : Z)
    (store : gmap string entry) :
  0 ≤ now ≤ datetime_max →
  ttl_seconds ≤ 0 →
  0 ≤ now + ttl_seconds * us_per_second →
  let put := cache_data now now' key v ttl_seconds store in
  let expires := now + ttl_seconds * us_per_second in
  put.1 = true
  ∧ put.2 = <[key := Entry v expires now']> store
  ∧ (expires < t → get_cached_data t key put.2 = (None, delete key put.2))
  ∧ (t ≤ expires → get_cached_data t key put.2 = (Some v, put.2))
  ∧ (ttl_seconds < 0 → now ≤ t → (get_cached_data t key put.2).1 = None)
  ∧ (ttl_seconds = 0 → now < t → (get_cached_data t key put.2).1 = None)
  ∧ (ttl_seconds = 0 → t = now → (get_cached_data t key put.2).1 = Some v).
Proof.
  intros Hnow Httl Hexp put expires. subst put.
  rewrite cache_data_ok by (unfold us_per_second in *; lia). simpl.
  assert (∀ t, expires < t →
    get_cached_data t key (<[key := Entry v expires now']> store)
    = (None, delete key (<[key := Entry v expires now']> store))) as Hlate.
  { intros t' Ht. eapply get_cached_data_expired; [apply lookup_insert_eq|].
    simpl. lia. }
  assert (∀ t, t ≤ expires →
    get_cached_data t key (<[key := Entry v expires now']> store)
    = (Some v, <[key := Entry v expires now']> store)) as Hearly.
  { intros t' Ht.
    by rewrite (get_cached_data_hit t' key _ _ (lookup_insert_eq _ _ _)). }
  unfold us_per_second in *. subst expires.
  repeat split; auto.
  - intros ? ?. rewrite Hlate; [done|lia].
  - intros ? ?. rewrite Hlate; [done|lia].
  - intros ? ?. rewrite Hearly; [done|lia].
Qed.

Lemma nonpositive_ttl_expires_once_clock_passes_witness :
  (get_cached_data (Samples.t2026 + 1) "k"
     (cache_data Samples.t2026 Samples.t2026 "k" (VInt 1) 0 ∅).2).1 = None.
Proof.
  refine (proj1 (proj2 (proj2 (proj2 (proj2 (proj2
    (nonpositive_ttl_expires_once_clock_passes
       Samples.t2026 Samples.t2026 (Samples.t2026 + 1) "k" (VInt 1) 0 ∅
       _ _ _)))))) eq_refl _); vm_compute; try split; congruence.
Defined.

(** C5. [put(k, v, 60)] followed by [get(k)] at a clock reading up to
    the expiry returns [v]; and for a key whose entry has
    [now > expires_at], [get(k)] returns absent and deletes the entry,
    so that the store has one entry less.  The put is taken at a clock
    reading that leaves room for the 60 seconds before [datetime.max]. *)
Theorem ttl_round_trip_and_lazy_expiry :
  (∀ (now now' t : Z) (key : string) (v : value) (store : gmap string entry),
     0 ≤ now → now + 60 * us_per_second ≤ datetime_max →
     t ≤ now + 60 * us_per_second →
     (cache_data now now' key v 60 store).1 = true
     ∧ (get_cached_data t key (cache_data now now' key v 60 store).2).1 = Some v)
  ∧ (∀ (now : Z) (key : string) (store : gmap string entry) (e : entry),
       store !! key = Some e → now > expires_at e →
       (get_cached_data now key store).1 = None
       ∧ (get_cached_data now key store).2 = delete key store
       ∧ (get_cached_data now key store).2 !! key = None
       ∧ size store = S (size (get_cached_data now key store).2)).
Proof.
  split.
  - intros now now' t key v store Hnow Hroom Ht.
    rewrite cache_data_ok by (unfold us_per_second in *; lia). simpl.
    split; [done|].
    by rewrite (get_cached_data_hit t key _ _ (lookup_insert_eq _ _ _)).
  - intros now key store e He Hnow.
    rewrite (get_cached_data_expired now key store e He Hnow). simpl.
    repeat split; [apply lookup_delete_eq|].
    rewrite (map_size_delete_Some key store) by eauto.
    assert (size store ≠ 0%nat); [|lia].
    intros ->%map_size_empty_inv. by rewrite lookup_empty in He.
Qed.

Lemma ttl_round_trip_and_lazy_expiry_witness :
  (get_cached_data (Samples.t2026 + 59 * us_per_second) "k"
     (cache_data Samples.t2026 Samples.t2026 "k" (VInt 1) 60 ∅).2).1
  = Some (VInt 1)
  ∧ size Samples.three_keys
    = S (size (get_cached_data (Samples.t2026 + 1) "weather_paris"
                 Samples.three_keys).2).
Proof.
  split.
  - refine (proj2 (proj1 ttl_round_trip_and_lazy_expiry
      Samples.t2026 Samples.t2026 (Samples.t2026 + 59 * us_per_second)
      "k" (VInt 1) ∅ _ _ _)); vm_compute; congruence.
  - refine (proj2 (proj2 (proj2 (proj2 ttl_round_trip_and_lazy_expiry
      (Samples.t2026 + 1) "weather_paris" Samples.three_keys
      (Entry (VInt 1) Samples.t2026 Samples.t2026) _ _)))); vm_compute; congruence.
Defined.

(** C6. [clear] with an absent pattern removes all entries and returns
    the prior entry count.  With a pattern it removes exactly the
    entries whose key contains the pattern as a substring, returns their
    number, and leaves every other entry as it was. *)
Theorem clear_cache_spec (store : gmap string entry) :
  clear_cache None store = (size store, ∅)
  ∧ ∀ pattern,
      let cleared := clear_cache (Some pattern) store in
      (∀ key, PyStr.substring pattern key → cleared.2 !! key = None)
      ∧ (∀ key, ¬ PyStr.substring pattern key → cleared.2 !! key = store !! key)
      ∧ cleared.1 = size (filter (matches pattern) store)
      ∧ (∀ kv, matches pattern kv ↔ PyStr.substring pattern kv.1)
      ∧ size store = (cleared.1 + size cleared.2)%nat.
Proof.
  split; [done|]. intros pattern cleared. subst cleared.
  rewrite clear_cache_pattern. simpl. repeat split.
  - intros key Hsub. apply map_lookup_filter_None. right.
    intros e _ Hn. apply Hn. by apply contains_spec.
  - intros key Hsub. destruct (store !! key) as [e|] eqn:He.
    + apply map_lookup_filter_Some. split; [done|].
      intros Hm. by apply Hsub, contains_spec.
    + apply map_lookup_filter_None. by left.
  - by intros ?%contains_spec.
  - by intros ?%contains_spec.
  - rewrite <- map_size_disj_union by apply map_disjoint_filter_complement.
    by rewrite map_filter_union_complement.
Qed.

(** The pattern example of the specification. *)
Example clear_weather_prefix :
  clear_cache (Some "weather_") Samples.three_keys
  = (2%nat, {["forecast_paris" := Entry (VInt 3) Samples.t2026 Samples.t2026]}).
Proof. vm_compute. reflexivity. Qed.

(** C9 (as stated, refuted). [put] with a [ttl_seconds] of 10^12: the
    expiry falls after year 9999, the addition raises [OverflowError],
    and the handler returns false. *)
Lemma cache_data_far_future_fails :
  (cache_data Samples.t2026 Samples.t2026 "k" (VInt 1) (10 ^ 12) ∅).1 = false.
Proof. vm_compute. reflexivity. Qed.

(** C9 (amended). [put] returns true exactly when the clock reading
    plus [ttl_seconds] is a datetime, between [datetime.min] and
    [datetime.max]; it then stores the entry under the key.  For any
    other [ttl_seconds] computing the expiry raises, [put] returns false
    and the store is unchanged.  The assignment to the store cannot
    fail. *)
Theorem cache_data_true_iff_expiry_representable
    (now now' : Z) (key : string) (v : value) (ttl_seconds : Z)
    (store : gmap string entry) :
  0 ≤ now ≤ datetime_max →
  let put := cache_data now now' key v ttl_seconds store in
  let expires := now + ttl_seconds * us_per_second in
  (put.1 = true ↔ 0 ≤ expires ≤ datetime_max)
  ∧ (put.1 = true → put.2 = <[key := Entry v expires now']> store)
  ∧ (put.1 = false → put.2 = store).
Proof.
  intros Hnow put expires. subst put expires.
  destruct (decide (0 ≤ now + ttl_seconds * us_per_second ≤ datetime_max))
    as [Hexp|Hexp].
  - rewrite cache_data_ok by done. simpl. split; [by split|]. by split.
  - rewrite cache_data_overflow by done. simpl. split; [|by split].
    split; [done|]. intros ?. by destruct Hexp.
Qed.

Lemma cache_data_true_iff_expiry_representable_witness :
  (cache_data Samples.t2026 Samples.t2026 "k" (VInt 1) 300 ∅).1 = true.
Proof.
  refine (proj2 (proj1 (cache_data_true_iff_expiry_representable
    Samples.t2026 Samples.t2026 "k" (VInt 1) 300 ∅ _)) _);
    vm_compute; split; congruence.
Defined.

(** C10. [clear] with the empty string as pattern behaves as [clear]
    with an absent pattern: every key contains the empty string, so it
    empties the store and returns the prior entry count. *)
Theorem clear_empty_pattern_is_clear_all (store : gmap string entry) :
  clear_cache (Some EmptyString) store = clear_cache None store
  ∧ clear_cache (Some EmptyString) store = (size store, ∅).
Proof.
  assert (clear_cache (Some EmptyString) store = (size store, ∅)) as H.
  { rewrite clear_cache_pattern. f_equal.
    - f_equal. apply map_filter_id. intros k e _. apply contains_empty.
    - apply map_empty_filter. intros k e _ Hn. apply Hn, contains_empty. }
  by rewrite H.
Qed.

End CacheFacts.

(** ** The host *)

Section HostFacts.
Import Extract Host.

(** The order in which the mapping lists its items does not matter. *)
Lemma extract_items_order source_data items items' :
  items ≡ₚ items' → NoDup items.*1 →
  extract_items source_data items ∅ = extract_items source_data items' ∅.
Proof.
  intros Hperm Hnd.
  destruct (decide (Forall (λ kp, is_ok (extract_field source_data kp.2) = true) items))
    as [Hall|Hex].
  - rewrite !extract_items_ok by (by rewrite <- ?Hperm).
    f_equal. apply map_eq. intros k.
    rewrite !foldl_insert_lookup by (by rewrite <- ?Hperm).
    by rewrite (list_to_map_proper items items' Hnd Hperm).
  - apply not_Forall_Exists in Hex; [|apply _].
    assert (Exists (λ kp, is_ok (extract_field source_data kp.2) = false) items) as Hex'.
    { eapply Exists_impl; [exact Hex|]. intros kp Hkp. simpl in Hkp.
      by destruct (is_ok _). }
    rewrite !extract_items_raise; [done| |done]. by rewrite <- Hperm.
Qed.

(** C7. Extraction is a function of the source and the mapping alone:
    a call leaves the state of the process as it found it, and a second
    call with the same arguments replies as the first did, whatever the
    state of the cache and the clock, whatever calls came between, and
    in whatever order the mapping lists its fields. *)
Theorem extract_deterministic (source_data : value)
    (field_mapping : gmap string string) (p : process)
    (now1 now1' now2 now2' : Z) (between : list (Z * Z * call)) :
  let first := dispatch now1 now1' (ExtractDataFields source_data field_mapping) p in
  let second :=
    dispatch now2 now2' (ExtractDataFields source_data field_mapping)
      (dispatch_all between first.2) in
  second.1 = first.1
  ∧ first.2 = p
  ∧ second.2 = dispatch_all between p
  ∧ (∀ p' now3 now3',
       (dispatch now3 now3' (ExtractDataFields source_data field_mapping) p').1
       = first.1)
  ∧ (∀ items, items ≡ₚ map_to_list field_mapping →
       Extracted (extract_items source_data items ∅) = first.1).
Proof.
  repeat split. intros items Hperm. simpl. f_equal.
  symmetry. apply extract_items_order; [done|apply NoDup_fst_map_to_list].
Qed.

End HostFacts.

(** ** Concurrent cache operations *)

Section ConcurrentFacts.
Import Cache Concurrent.

Implicit Types store : gmap string entry.

Lemma written_app store0 trace evs key e :
  written store0 trace key e → written store0 (trace ++ evs) key e.
Proof.
  intros [[tid Hin]|Hinit]; [left|by right].
  exists tid. apply elem_of_app. by left.
Qed.

(** One step of one operation keeps the entries whole, and a hit reads
    value and expiry from one entry that is whole. *)
Lemma tstep_whole store0 trace tid store t evs store' t' :
  tstep tid store t evs store' t' →
  (∀ key e, store !! key = Some e → written store0 trace key e) →
  (∀ key e, t = GetCheck key e → written store0 trace key e) →
  (∀ key e, store' !! key = Some e → written store0 (trace ++ evs) key e)
  ∧ (∀ key e, t' = GetCheck key e → written store0 (trace ++ evs) key e)
  ∧ (∀ tid' key v x, Hit tid' key v x ∈ evs →
       ∃ e, written store0 trace key e ∧ data e = v ∧ expires_at e = x).
Proof.
  intros Hstep Hstore Htask.
  assert (∀ key e, store !! key = Some e → written store0 (trace ++ evs) key e)
    as Hstore' by (intros; by apply written_app, Hstore).
  destruct Hstep; (split; [|split]); try done;
    try (by intros ? ? ? ? ?%elem_of_nil).
  - (* the assignment of [put] *)
    intros k e. destruct (decide (key = k)) as [->|Hne].
    + rewrite lookup_insert_eq. intros [= <-]. left. exists tid.
      apply elem_of_app. right. by apply list_elem_of_singleton.
    + rewrite lookup_insert_ne by done. apply Hstore'.
  - intros ? ? ? ? Hin. apply list_elem_of_singleton in Hin. done.
  - (* [cache_entry = _cache_store[key]] *)
    intros k e [= <- <-]. by apply Hstore'.
  - (* the hit *)
    intros tid' k v x Hin. apply list_elem_of_singleton in Hin.
    injection Hin as -> -> -> ->. exists cache_entry. split; [|done].
    by apply Htask.
  - intros k e [Hne He]%lookup_delete_Some. by apply Hstore'.
  - intros k e [Hne He]%lookup_delete_Some. by apply Hstore'.
Qed.

Lemma step_whole store0 trace c evs c' :
  step c evs c' →
  whole_entries store0 trace c →
  whole_entries store0 (trace ++ evs) c'
  ∧ (∀ tid key v x, Hit tid key v x ∈ evs →
       ∃ e, written store0 trace key e ∧ data e = v ∧ expires_at e = x).
Proof.
  intros Hstep [Hstore Htasks]. destruct Hstep as [store ts t Hstart|store ts tid t evs store' t' Hts Hstep].
  - split; [|by intros ? ? ? ? ?%elem_of_nil]. split; simpl in *.
    + intros. by apply written_app, Hstore.
    + intros tid key e Hin. apply written_app.
      apply lookup_app_Some in Hin as [Hin|[_ Hin]]; [by eapply Htasks|].
      apply list_lookup_singleton_Some in Hin as [_ ->].
      destruct Hstart as [(? & ? & ? & [=])|[(? & [=])|(? & [=])]].
  - simpl in *.
    destruct (tstep_whole store0 trace tid store t evs store' t' Hstep Hstore)
      as (Hstore' & Htask' & Hhit).
    { intros key e ->. by eapply Htasks. }
    split; [split|exact Hhit]; simpl; [exact Hstore'|].
    intros tid' key e Hin. destruct (decide (tid = tid')) as [->|Hne].
    + rewrite list_lookup_insert_eq in Hin by (by eapply lookup_lt_Some).
      injection Hin as ->. by apply Htask'.
    + rewrite list_lookup_insert_ne in Hin by done.
      by eapply written_app, Htasks.
Qed.

Lemma run_whole store0 trace c :
  run (Config store0 []) trace c →
  whole_entries store0 trace c
  ∧ ∀ i tid key v x, trace !! i = Some (Hit tid key v x) →
      (∃ j tid' e, (j < i)%nat ∧ trace !! j = Some (Stored tid' key e)
         ∧ data e = v ∧ expires_at e = x)
      ∨ (∃ e, store0 !! key = Some e ∧ data e = v ∧ expires_at e = x).
Proof.
  remember (Config store0 []) as c0 eqn:Hc0.
  induction 1 as [c|c evs c' evs' c'' Hrun IH Hstep]; subst.
  - split; [|by intros ? ? ? ? ? ?].
    split; simpl; [by right|by intros ? ? ? ?].
  - destruct (IH eq_refl) as [Hwhole Hhits].
    destruct (step_whole store0 evs c' evs' c'' Hstep Hwhole) as [Hwhole' Hnew].
    split; [exact Hwhole'|].
    intros i tid key v x Hi. apply lookup_app_Some in Hi as [Hi|[Hlen Hi]].
    + destruct (Hhits i tid key v x Hi) as [(j & tid' & e & Hj & Hje & Hv)|Hinit];
        [left|by right].
      exists j, tid', e. split; [done|]. split; [|done].
      by apply lookup_app_l_Some.
    + destruct (Hnew tid key v x) as (e & [[tid' Hin]|Hinit] & Hv & Hx).
      { apply list_elem_of_lookup. eauto. }
      * apply list_elem_of_lookup in Hin as [j Hj]. left.
        exists j, tid', e. pose proof (lookup_lt_Some _ _ _ Hj).
        split; [lia|]. split; [by apply lookup_app_l_Some|done].
      * right. by exists e.
Qed.

(** *** The operations of [Cache] are what the steps do when one
    operation runs alone *)

Lemma solo_one tid store t evs store' t' :
  tstep tid store t evs store' t' → solo tid store t evs store' t'.
Proof.
  intros Hstep. rewrite <- (app_nil_r evs).
  eapply solo_step; [exact Hstep|apply solo_nil].
Qed.

Lemma cache_data_solo tid now now' key v ttl_seconds store :
  ∃ evs, solo tid store (PutStart key v ttl_seconds) evs
    (cache_data now now' key v ttl_seconds store).2
    (Done (RBool (cache_data now now' key v ttl_seconds store).1)).
Proof.
  unfold cache_data.
  destruct (d ← timedelta ttl_seconds; datetime_add now d) as [x|e] eqn:Hx; simpl.
  - eexists. eapply solo_step; [by eapply put_expiry|].
    apply solo_one, put_store.
  - eexists. apply solo_one. by eapply put_overflow.
Qed.

Lemma get_cached_data_solo tid now key store :
  ∃ evs, solo tid store (GetStart key) evs
    (get_cached_data now key store).2
    (Done (RValue (get_cached_data now key store).1)).
Proof.
  unfold get_cached_data, dict_del.
  destruct (store !! key) as [e|] eqn:He; simpl.
  - destruct (now >? expires_at e) eqn:Hnow; simpl.
    + eexists. eapply solo_step; [by apply get_present|].
      eapply solo_step; [by apply get_fetch|].
      eapply solo_step; [apply (get_expired _ _ _ _ now); lia|].
      apply solo_one, get_delete.
    + eexists. eapply solo_step; [by apply get_present|].
      eapply solo_step; [by apply get_fetch|].
      apply solo_one, (get_hit _ _ _ _ now). lia.
  - eexists. apply solo_one. by apply get_miss.
Qed.

Lemma del_keys_solo tid count keys store :
  solo tid store (ClearLoop count keys) [] (del_keys keys store).2
    (Done (RCount (if is_ok (del_keys keys store).1 then count else 0%nat))).
Proof.
  revert store. induction keys as [|key rest IH]; intros store; simpl.
  - apply solo_one, clear_end.
  - unfold dict_del. destruct (store !! key) as [e|] eqn:He; simpl.
    + eapply (solo_step _ _ _ [] _ _ []); [by apply clear_del|apply IH].
    + apply solo_one. by apply clear_del_gone.
Qed.

Lemma clear_cache_solo tid pattern store :
  ∃ evs, solo tid store (ClearStart pattern) evs
    (clear_cache pattern store).2
    (Done (RCount (clear_cache pattern store).1)).
Proof.
  destruct pattern as [p|]; simpl.
  - exists []. eapply (solo_step _ _ _ [] _ _ []).
    + apply (clear_keys _ _ _ (keys_to_remove p store)), Forall_forall.
      by intros key [? _]%keys_to_remove_elem.
    + pose proof (del_keys_solo tid (List.length (keys_to_remove p store))
        (keys_to_remove p store) store) as Hsolo.
      by destruct (del_keys _ _) as [[[]|e] store'].
  - exists []. eapply (solo_step _ _ _ [] _ _ []); [apply clear_len|].
    apply solo_one, clear_all.
Qed.

(** Conversely, a [put] or a [get] that runs alone to its end has done
    what the function does at some clock readings. *)
Lemma solo_done tid store r evs store' t :
  solo tid store (Done r) evs store' t → evs = [] ∧ store' = store ∧ t = Done r.
Proof. inversion 1 as [|? ? ? ? ? ? ? ? Hstep]; [done|inversion Hstep]. Qed.

Lemma solo_put_inv tid store key v ttl_seconds evs store' r :
  solo tid store (PutStart key v ttl_seconds) evs store' (Done r) →
  ∃ now now', r = RBool (cache_data now now' key v ttl_seconds store).1
    ∧ store' = (cache_data now now' key v ttl_seconds store).2.
Proof.
  inversion 1 as [|? ? ? ? ? ? ? ? Hstep Hrest]; subst.
  inversion Hstep as [? ? ? ? now x Hx|? ? ? ? now e Hx| | | | | | | | | | | | | | |]; subst.
  - inversion Hrest as [|? ? ? ? ? ? ? ? Hstep' Hrest']; subst.
    inversion Hstep'; subst. apply solo_done in Hrest' as (_ & -> & [= ->]).
    exists now, now'. unfold cache_data. by rewrite Hx.
  - apply solo_done in Hrest as (_ & -> & [= ->]).
    exists now, now. unfold cache_data. by rewrite Hx.
Qed.

Lemma solo_get_inv tid store key evs store' r :
  solo tid store (GetStart key) evs store' (Done r) →
  ∃ now, r = RValue (get_cached_data now key store).1
    ∧ store' = (get_cached_data now key store).2.
Proof.
  inversion 1 as [|? ? ? ? ? ? ? ? Hstep Hrest]; subst.
  inversion Hstep as [| | |? ? Hmiss|? ? [e He]| | | | | | | | | | | |]; subst.
  - apply solo_done in Hrest as (_ & -> & [= ->]).
    exists 0. by rewrite get_cached_data_miss.
  - inversion Hrest as [|? ? ? ? ? ? ? ? Hstep' Hrest']; subst.
    inversion Hstep' as [| | | | |? ? e' He'|? ? Hgone| | | | | | | | | |]; subst;
      [|congruence].
    assert (e' = e) as -> by congruence.
    inversion Hrest' as [|? ? ? ? ? ? ? ? Hstep'' Hrest'']; subst.
    inversion Hstep'' as [| | | | | | |? ? ? now Hnow|? ? ? now Hnow| | | | | | | |]; subst.
    + inversion Hrest'' as [|? ? ? ? ? ? ? ? Hstep3 Hrest3]; subst.
      inversion Hstep3; subst. apply solo_done in Hrest3 as (_ & -> & [= ->]).
      exists now. by rewrite (get_cached_data_expired now key _ e).
    + apply solo_done in Hrest'' as (_ & -> & [= ->]).
      exists now. rewrite (get_cached_data_hit now key _ e); [done..|lia].
Qed.

(** The sample trace is a run: a [put] and then a [get], step by step. *)
Lemma put_then_get_run :
  run (Config ∅ []) Samples.put_then_get Samples.put_then_get_end.
Proof.
  pose (e := Samples.k_entry). pose (s := ({["k" := e]} : gmap string entry)).
  apply (run_step _ [Stored 0 "k" e] (Config s [Done (RBool true); GetCheck "k" e])
           [Hit 1 "k" (VInt 1) Samples.k_expiry]).
  - apply (run_step _ [Stored 0 "k" e] (Config s [Done (RBool true); GetFetch "k"]) []).
    apply (run_step _ [Stored 0 "k" e] (Config s [Done (RBool true); GetStart "k"]) []).
    apply (run_step _ [Stored 0 "k" e] (Config s [Done (RBool true)]) []).
    apply (run_step _ [] (Config ∅ [PutStore "k" (VInt 1) Samples.k_expiry])
             [Stored 0 "k" e]).
    apply (run_step _ [] (Config ∅ [PutStart "k" (VInt 1) 60]) []).
    apply (run_step _ [] (Config ∅ []) []).
    + apply run_nil.
    + apply (step_spawn ∅ [] (PutStart "k" (VInt 1) 60)). left. by eexists _, _, _.
    + apply (step_task ∅ [PutStart "k" (VInt 1) 60] 0 _ _ _ _ eq_refl).
      by apply (put_expiry 0 ∅ "k" (VInt 1) 60 Samples.t2026).
    + apply (step_task ∅ [PutStore "k" (VInt 1) Samples.k_expiry] 0 _ _ _ _ eq_refl).
      apply (put_store 0 ∅ "k" (VInt 1) Samples.k_expiry Samples.t2026).
    + apply (step_spawn s [Done (RBool true)] (GetStart "k")). right. left. by eexists.
    + apply (step_task s [Done (RBool true); GetStart "k"] 1 _ _ _ _ eq_refl).
      apply get_present. by exists e.
    + apply (step_task s [Done (RBool true); GetFetch "k"] 1 _ _ _ _ eq_refl).
      by apply get_fetch.
  - apply (step_task s [Done (RBool true); GetCheck "k" e] 1 _ _ _ _ eq_refl).
    apply (get_hit 1 s "k" e Samples.t2026). vm_compute. congruence.
Defined.

(** C8. Cache operations invoked concurrently never produce a torn
    read.  In every interleaving of the dictionary accesses of any
    number of [put], [get] and [clear] operations, started at any time
    on any keys, whenever a [get] returns a value after comparing the
    clock with an expiry, that value and that expiry are the two fields
    of one entry, stored under the key by one earlier [put] of the run
    or present under it when the run began.  The host's cooperative
    schedule, which runs each of these operations whole because none of
    them awaits, is among the interleavings. *)
Theorem no_torn_read (store0 : gmap string entry) (trace : list event)
    (c : config) :
  run (Config store0 []) trace c →
  ∀ i tid key v x, trace !! i = Some (Hit tid key v x) →
    (∃ j tid' e, (j < i)%nat ∧ trace !! j = Some (Stored tid' key e)
       ∧ data e = v ∧ expires_at e = x)
    ∨ (∃ e, store0 !! key = Some e ∧ data e = v ∧ expires_at e = x).
Proof. intros Hrun. by apply run_whole in Hrun as [_ Hhits]. Qed.

Lemma no_torn_read_witness :
  (∃ j tid' e, (j < 1)%nat
     ∧ Samples.put_then_get !! j = Some (Stored tid' "k" e)
     ∧ data e = VInt 1 ∧ expires_at e = Samples.k_expiry)
  ∨ (∃ e, (∅ : gmap string entry) !! "k" = Some e
       ∧ data e = VInt 1 ∧ expires_at e = Samples.k_expiry).
Proof.
  exact (no_torn_read ∅ Samples.put_then_get Samples.put_then_get_end
           put_then_get_run 1%nat 1%nat "k" (VInt 1) Samples.k_expiry eq_refl).
Defined.

End ConcurrentFacts.

(** ** Blanks, case and replacement *)

(** A fact about each of the 256 characters, by computation. *)
Ltac each_char c := destruct c as [[] [] [] [] [] [] [] []]; reflexivity.

Section PyTextFacts.
Import PyText.

Example strip_title_replace :
  strip ("  London " ++ String (ascii_of_nat 10) "") = "London"
  ∧ strip "   " = ""
  ∧ title "new york" = "New York"
  ∧ title "o'brien" = "O'Brien"
  ∧ title "3rd ST" = "3Rd St"
  ∧ replace "aa" "b" "aaa" = "ba"
  ∧ replace " Us" " US" "To Us Or Usa" = "To US Or USa"
  ∧ replace "" "-" "abc" = "-a-b-c-".
Proof. repeat split. Qed.

Lemma to_lower_idemp c : to_lower (to_lower c) = to_lower c.
Proof. each_char c. Qed.
Lemma to_lower_to_upper c : to_lower (to_upper c) = to_lower c.
Proof. each_char c. Qed.
Lemma to_upper_to_lower c : to_upper (to_lower c) = to_upper c.
Proof. each_char c. Qed.
Lemma is_cased_to_lower c : is_cased (to_lower c) = is_cased c.
Proof. each_char c. Qed.
Lemma isspace_to_lower c : isspace (to_lower c) = isspace c.
Proof. each_char c. Qed.

Lemma lower_app s t : lower (s ++ t) = (lower s ++ lower t)%string.
Proof. induction s as [|c s IH]; simpl; [done|by rewrite IH]. Qed.

Lemma lower_length s : String.length (lower s) = String.length s.
Proof. induction s as [|c s IH]; simpl; [done|by rewrite IH]. Qed.

Lemma lower_eq_length s t : lower s = lower t → String.length s = String.length t.
Proof. intros H. by rewrite <- (lower_length s), H, lower_length. Qed.

(** [title] changes nothing but the case of letters, and looks at
    nothing but the letters up to case. *)
Lemma lower_title_from b s : lower (title_from b s) = lower s.
Proof.
  revert b. induction s as [|c s IH]; intros b; simpl; [done|].
  rewrite IH. by destruct b; rewrite ?to_lower_idemp, ?to_lower_to_upper.
Qed.

Lemma title_from_lower b s t : lower s = lower t → title_from b s = title_from b t.
Proof.
  revert b t. induction s as [|c s IH]; intros b [|d t]; simpl; try done.
  intros [= Hc Hs].
  assert (is_cased c = is_cased d) as ->
    by (by rewrite <- (is_cased_to_lower c), Hc, is_cased_to_lower).
  rewrite (IH _ t Hs). f_equal. destruct b.
  - by rewrite <- (to_lower_idemp c), Hc, to_lower_idemp.
  - by rewrite <- (to_upper_to_lower c), Hc, to_upper_to_lower.
Qed.

(** [replace] with a non-empty pattern. *)
Lemma replace_from_drop skip old new s :
  replace_from skip old new s = replace_from 0 old new (drop skip s).
Proof.
  revert skip. induction s as [|c s IH]; intros [|k]; try done.
  simpl. apply IH.
Qed.

Lemma drop_app_length s t : drop (String.length s) (s ++ t) = t.
Proof. induction s as [|c s IH]; simpl; [by destruct t|done]. Qed.

Lemma drop_length_le n s : (String.length (drop n s) ≤ String.length s)%nat.
Proof.
  revert s. induction n as [|n IH]; intros [|c s]; simpl; try lia.
  specialize (IH s). lia.
Qed.

(** One unfolding of [replace_from]: an occurrence at the front is
    replaced and the rest follows, any other first character is kept. *)
Lemma replace_from_front a old new rest :
  replace_from 0 (String a old) new (String a old ++ rest)
  = (new ++ replace_from 0 (String a old) new rest)%string.
Proof.
  change (String a old ++ rest)%string with (String a (old ++ rest)).
  cbn [replace_from].
  assert (PyStr.startswith (String a old) (String a (old ++ rest)) = true) as ->.
  { apply startswith_spec. by exists rest. }
  f_equal. rewrite replace_from_drop. cbn [String.length].
  replace (S (String.length old) - 1)%nat with (String.length old) by lia.
  by rewrite drop_app_length.
Qed.

Lemma app_length_string s t :
  String.length (s ++ t) = (String.length s + String.length t)%nat.
Proof. induction s as [|c s IH]; simpl; [done|by rewrite IH]. Qed.

(** Replacing a pattern by one that differs from it in case only
    changes the case of letters only. *)
Lemma replace_from_lower old new s :
  old ≠ EmptyString → lower old = lower new →
  lower (replace_from 0 old new s) = lower s.
Proof.
  intros Hold Hlow.
  assert (∀ n s, (String.length s ≤ n)%nat →
    lower (replace_from 0 old new s) = lower s) as Hall; [|by eapply Hall].
  clear s. induction n as [|n IH]; intros [|c s] Hlen; simpl in Hlen; try done; [lia|].
  destruct (PyStr.startswith old (String c s)) eqn:Hstart.
  - apply startswith_spec in Hstart as [rest Hrest].
    destruct old as [|a old]; [done|]. rewrite Hrest, replace_from_front.
    rewrite !lower_app, <- Hlow. f_equal. apply IH.
    apply (f_equal String.length) in Hrest.
    rewrite app_length_string in Hrest. simpl in Hrest. lia.
  - cbn [replace_from]. rewrite Hstart. simpl. f_equal. apply IH. lia.
Qed.

Lemma replace_lower old new s :
  old ≠ EmptyString → lower old = lower new →
  lower (replace old new s) = lower s.
Proof.
  intros Hold Hlow. destruct old; [done|]. by apply replace_from_lower.
Qed.

(** Stripping. *)
Lemma lstrip_length s : (String.length (lstrip s) ≤ String.length s)%nat.
Proof. induction s as [|c s IH]; simpl; [done|]. destruct (isspace c); simpl; lia. Qed.

Lemma rstrip_length s : (String.length (rstrip s) ≤ String.length s)%nat.
Proof.
  induction s as [|c s IH]; simpl; [done|].
  destruct (rstrip s); [destruct (isspace c)|]; simpl in *; lia.
Qed.

Lemma lstrip_full s : String.length (lstrip s) = String.length s → lstrip s = s.
Proof.
  destruct s as [|c s]; simpl; [done|]. destruct (isspace c); [|done].
  pose proof (lstrip_length s). lia.
Qed.

Lemma rstrip_full s : String.length (rstrip s) = String.length s → rstrip s = s.
Proof.
  induction s as [|c s IH]; simpl; [done|]. pose proof (rstrip_length s) as Hle.
  destruct (rstrip s) as [|d r] eqn:Hr.
  - destruct (isspace c); simpl; [lia|]. intros [= Hs].
    destruct s; [done|simpl in *; lia].
  - simpl in *. intros [= Hs]. by rewrite IH.
Qed.

Lemma strip_full s : String.length (strip s) = String.length s → strip s = s.
Proof.
  unfold strip. intros Hlen.
  pose proof (lstrip_length (rstrip s)). pose proof (rstrip_length s).
  rewrite (rstrip_full s) by lia. rewrite (rstrip_full s) in Hlen by lia.
  by apply lstrip_full.
Qed.

Lemma lower_lstrip s : lower (lstrip s) = lstrip (lower s).
Proof.
  induction s as [|c s IH]; simpl; [done|].
  rewrite isspace_to_lower. by destruct (isspace c).
Qed.

Lemma lower_rstrip s : lower (rstrip s) = rstrip (lower s).
Proof.
  induction s as [|c s IH]; simpl; [done|].
  rewrite <- IH, isspace_to_lower.
  destruct (rstrip s); simpl; [by destruct (isspace c)|done].
Qed.

Lemma lower_strip s : lower (strip s) = strip (lower s).
Proof. unfold strip. by rewrite lower_lstrip, lower_rstrip. Qed.

Lemma lstrip_idemp s : lstrip (lstrip s) = lstrip s.
Proof.
  induction s as [|c s IH]; simpl; [done|].
  destruct (isspace c) eqn:Hc; [done|]. simpl. by rewrite Hc.
Qed.

Lemma rstrip_cons c s :
  rstrip (String c s)
  = match rstrip s with
    | EmptyString => if isspace c then EmptyString else String c EmptyString
    | r => String c r
    end.
Proof. done. Qed.

Lemma rstrip_idemp s : rstrip (rstrip s) = rstrip s.
Proof.
  induction s as [|c s IH]; [done|]. rewrite (rstrip_cons c s).
  destruct (rstrip s) as [|d r] eqn:Hr.
  - destruct (isspace c) eqn:Hc; simpl; [done|]. by rewrite Hc.
  - by rewrite rstrip_cons, IH.
Qed.

Lemma rstrip_lstrip_fixed s : rstrip s = s → rstrip (lstrip s) = lstrip s.
Proof.
  induction s as [|c s IH]; [done|]. intros Hs. simpl.
  destruct (isspace c) eqn:Hc; [|done]. apply IH.
  rewrite rstrip_cons, Hc in Hs. destruct (rstrip s); [done|]. by injection Hs.
Qed.

Lemma strip_idemp s : strip (strip s) = strip s.
Proof.
  unfold strip. rewrite (rstrip_lstrip_fixed (rstrip s)) by apply rstrip_idemp.
  apply lstrip_idemp.
Qed.

End PyTextFacts.

(** ** Location names *)

Section WeatherDomainFacts.
Import PyText WeatherDomain.

Example validate_location_examples :
  validate_location "  new york usa " = LocationValidation true "New York USA" []
  ∧ validate_location "london uk" = LocationValidation true "London UK" []
  ∧ validate_location "usa" = LocationValidation true "Usa" []
  ∧ validate_location "la paz" = LocationValidation true "LA Paz" []
  ∧ validate_location "x" = LocationValidation false "" ["Location name too short"]
  ∧ validate_location "   " = LocationValidation false "" ["Location name too short"]
  ∧ validate_location "" = LocationValidation false "" ["Please provide a valid location name"]
  ∧ validate_location "a;b" = LocationValidation false "" ["Location contains invalid characters"].
Proof. repeat split. Qed.

Lemma location_char_to_lower c : location_char (to_lower c) = location_char c.
Proof. each_char c. Qed.

Lemma all_location_char_lower s :
  PyStr.all_chars location_char (lower s) = PyStr.all_chars location_char s.
Proof.
  induction s as [|c s IH]; simpl; [done|]. by rewrite IH, location_char_to_lower.
Qed.

Lemma location_match_lower s t :
  lower s = lower t → location_match s = location_match t.
Proof.
  intros H. unfold location_match.
  rewrite <- (all_location_char_lower s), H, all_location_char_lower.
  by destruct s, t.
Qed.

(** Standardising changes the case of letters and nothing else. *)
Lemma standardize_lower cleaned : lower (standardize cleaned) = lower cleaned.
Proof.
  unfold standardize, abbreviations. cbn [foldl fst snd].
  rewrite !replace_lower by done. apply lower_title_from.
Qed.

(** It looks at its argument up to case only. *)
Lemma standardize_of_lower s t : lower s = lower t → standardize s = standardize t.
Proof.
  intros H. unfold standardize, title. by rewrite (title_from_lower false s t H).
Qed.

Lemma standardize_idemp cleaned : standardize (standardize cleaned) = standardize cleaned.
Proof. apply standardize_of_lower, standardize_lower. Qed.

Lemma validate_location_cleaned location :
  location ≠ EmptyString →
  validate_location location
  = let cleaned_location := strip location in
    if (String.length cleaned_location <? 2)%nat then
      LocationValidation false EmptyString ["Location name too short"]
    else if (100 <? String.length cleaned_location)%nat then
      LocationValidation false EmptyString ["Location name too long"]
    else if negb (location_match cleaned_location) then
      LocationValidation false EmptyString ["Location contains invalid characters"]
    else LocationValidation true (standardize cleaned_location) [].
Proof. by destruct location. Qed.

(** X5. [validate_location] accepts a location exactly when, with the
    blanks at its ends removed, it has 2 to 100 characters, all of them
    ASCII letters, digits, blanks, hyphens, apostrophes, commas or full
    stops.  An accepted location comes back standardised and without
    suggestion; a refused one with an empty standardised name and one
    suggestion. *)
Theorem validate_location_accepts (location : string) :
  let r := validate_location location in
  (valid r = true ↔
     (2 ≤ String.length (strip location) ≤ 100)%nat
     ∧ PyStr.all_chars location_char (strip location) = true)
  ∧ (valid r = true →
       standardized r = standardize (strip location) ∧ suggestions r = [])
  ∧ (valid r = false →
       standardized r = EmptyString ∧ List.length (suggestions r) = 1%nat).
Proof.
  destruct (decide (location = EmptyString)) as [->|Hne].
  { simpl. split; [|by split]. split; [done|]. intros [? _]. lia. }
  cbn zeta. rewrite (validate_location_cleaned location Hne). cbn zeta.
  destruct (Nat.ltb_spec (String.length (strip location)) 2).
  { simpl. split; [|by split]. split; [done|]. intros [? _]. lia. }
  destruct (Nat.ltb_spec 100 (String.length (strip location))).
  { simpl. split; [|by split]. split; [done|]. intros [? _]. lia. }
  unfold location_match.
  destruct (strip location) as [|c s] eqn:Hs; [simpl in *; lia|].
  destruct (PyStr.all_chars location_char (String c s)) eqn:Hall; simpl in *.
  - split; [|by split]. split; [|done]. intros _. split; [lia|done].
  - split; [|by split]. split; [done|]. by intros [_ ?].
Qed.

(** X6. Standardising an accepted location changes nothing but the
    case of letters: the standardised name has the length of the
    trimmed input and the same characters up to case. *)
Theorem standardized_differs_in_case_only (location : string) :
  valid (validate_location location) = true →
  lower (standardized (validate_location location)) = lower (strip location)
  ∧ String.length (standardized (validate_location location))
    = String.length (strip location).
Proof.
  intros Hvalid.
  destruct (validate_location_accepts location) as (_ & Hstd & _).
  destruct (Hstd Hvalid) as [-> _].
  split; [apply standardize_lower|apply lower_eq_length, standardize_lower].
Qed.

Lemma standardized_differs_in_case_only_witness :
  lower (standardized (validate_location " new york usa")) = lower "new york usa".
Proof.
  exact (proj1 (standardized_differs_in_case_only " new york usa" eq_refl)).
Defined.

(** X7. A standardised name is a fixed point: validating the
    standardised form of an accepted location accepts it and returns it
    unchanged. *)
Theorem standardized_is_fixed_point (location : string) :
  valid (validate_location location) = true →
  validate_location (standardized (validate_location location))
  = validate_location location.
Proof.
  intros Hvalid.
  destruct (validate_location_accepts location) as (Hacc & Hstd & _).
  destruct (Hstd Hvalid) as [Hs Hsug].
  destruct (proj1 Hacc Hvalid) as [Hlen Hall].
  set (cleaned := strip location) in *.
  pose proof (standardize_lower cleaned) as Hlow.
  assert (strip (standardize cleaned) = standardize cleaned) as Hstrip.
  { apply strip_full, lower_eq_length.
    rewrite lower_strip, Hlow, <- lower_strip. subst cleaned.
    by rewrite strip_idemp. }
  assert (validate_location location
          = LocationValidation true (standardize cleaned) []) as Hr.
  { destruct (validate_location location). simpl in *. by subst. }
  rewrite Hr. simpl.
  assert (standardize cleaned ≠ EmptyString) as Hne.
  { intros Hempty. apply lower_eq_length in Hlow. rewrite Hempty in Hlow.
    simpl in Hlow. lia. }
  rewrite (validate_location_cleaned _ Hne). cbn zeta. rewrite Hstrip.
  rewrite (lower_eq_length _ _ Hlow).
  rewrite (proj2 (Nat.ltb_ge _ _)) by lia.
  rewrite (proj2 (Nat.ltb_ge _ _)) by lia.
  rewrite (location_match_lower _ _ Hlow).
  unfold location_match. destruct cleaned as [|c s]; [simpl in *; lia|].
  rewrite Hall. simpl. by rewrite standardize_idemp.
Qed.

Lemma standardized_is_fixed_point_witness :
  validate_location "New York USA" = validate_location " new york usa".
Proof.
  exact (standardized_is_fixed_point " new york usa" eq_refl).
Defined.

(** X8. Blanks at the ends of a location do not matter: a location
    that is not all blanks is validated as its trimmed form is. *)
Theorem validate_location_ignores_outer_blanks (location : string) :
  strip location ≠ EmptyString →
  validate_location location = validate_location (strip location).
Proof.
  intros Hne. assert (location ≠ EmptyString) by (by intros ->).
  rewrite (validate_location_cleaned location) by done.
  rewrite (validate_location_cleaned (strip location)) by done.
  cbn zeta. by rewrite strip_idemp.
Qed.

Lemma validate_location_ignores_outer_blanks_witness :
  validate_location "  paris  " = validate_location (strip "  paris  ").
Proof.
  apply validate_location_ignores_outer_blanks. vm_compute. congruence.
Defined.

End WeatherDomainFacts.

(** ** Validating a response *)

Section HttpApiFacts.
Import HttpApi.

Example validate_paris :
  validate_api_response Samples.paris ["name"; "main.temp"; "main.pressure"; "wind"] "json"
  = Validation false ["main.pressure"; "wind"]
      [Missing_required_fields ["main.pressure"; "wind"]]
  ∧ validate_api_response Samples.paris ["name"; "main.temp"] "json"
    = Validation true [] []
  ∧ validate_api_response Samples.paris ["weather.0.description"] "json"
    = Validation false ["weather.0.description"]
        [Missing_required_fields ["weather.0.description"]]
  ∧ validate_api_response (VList []) ["name"] "json"
    = Validation false [] [Expected_dict_got List].
Proof. repeat split; vm_compute; reflexivity. Qed.

(** A field without "." is its own single segment, so the two branches
    of the loop make the same test. *)
Lemma split_no_dot field :
  PyStr.contains "." field = false → PyStr.split "." field = [field].
Proof.
  induction field as [|c s IH]; [done|]. cbn [PyStr.contains PyStr.startswith].
  intros [Hc Hs]%orb_false_elim. simpl.
  destruct (Ascii.eqb_spec c ".") as [->|Hdot]; [done|].
  by rewrite (IH Hs).
Qed.

Lemma field_missing_nested d field :
  field_missing d field = nested_missing (VDict d) (PyStr.split "." field).
Proof.
  unfold field_missing. destruct (PyStr.contains "." field) eqn:Hdot; [done|].
  rewrite (split_no_dot field Hdot). simpl. by destruct (d !! field).
Qed.

Lemma check_required_filter d required_fields :
  check_required d required_fields
  = filter (λ field, field_missing d field = true) required_fields.
Proof.
  unfold check_required.
  assert (∀ acc, foldl (λ missing field,
      if field_missing d field then missing ++ [field] else missing)
      acc required_fields
    = acc ++ filter (λ field, field_missing d field = true) required_fields)
    as H; [|apply H].
  induction required_fields as [|field rest IH]; intros acc; simpl.
  - by rewrite app_nil_r.
  - rewrite IH. destruct (field_missing d field) eqn:Hf.
    + rewrite filter_cons_True by done. by rewrite <- app_assoc.
    + rewrite filter_cons_False; [done|]. by rewrite Hf.
Qed.



(** X1. For a response that is a map, [missing_fields] lists, in the
    order given and as often as given, the required fields whose
    segments cannot be followed through nested maps; the response is
    valid exactly when none is missing, and then carries no error,
    otherwise the one error naming the missing fields. *)
Theorem validate_lists_unreachable_fields (d : gmap string value)
    (required_fields : list string) (response_type : string) :
  let r := validate_api_response (VDict d) required_fields response_type in
  missing_fields r
  = filter (λ field, nested_missing (VDict d) (PyStr.split "." field) = true)
      required_fields
  ∧ (valid r = true ↔ missing_fields r = [])
  ∧ (valid r = true ↔ errors r = [])
  ∧ (valid r = false → errors r = [Missing_required_fields (missing_fields r)]).
Proof.
  cbn zeta. unfold validate_api_response.
  assert (check_required d required_fields
    = filter (λ field, nested_missing (VDict d) (PyStr.split "." field) = true)
        required_fields) as Hfilter.
  { rewrite check_required_filter. apply list_filter_iff.
    intros field. by rewrite field_missing_nested. }
  rewrite <- Hfilter. by destruct (check_required d required_fields).
Qed.





(** X4. A response that is not a map is never searched for fields.  As
    "json" it is invalid, with the single error naming its type and no
    field listed as missing; with any other response type it is valid,
    whatever fields are required. *)
Theorem validate_non_map_response (response_data : value)
    (required_fields : list string) (response_type : string) :
  (∀ d, response_data ≠ VDict d) →
  let r := validate_api_response response_data required_fields response_type in
  missing_fields r = []
  ∧ (response_type = "json" →
       valid r = false ∧ errors r = [Expected_dict_got (type_of response_data)])
  ∧ (response_type ≠ "json" → valid r = true ∧ errors r = []).
Proof.
  intros Hnd. cbn zeta. unfold validate_api_response.
  destruct response_data; try (by destruct (Hnd d));
    destruct (String.eqb_spec response_type "json"); simpl; by repeat split.
Qed.

Lemma validate_non_map_response_witness :
  valid (validate_api_response (VList [VInt 1]) ["name"] "text") = true
  ∧ errors (validate_api_response (VList [VInt 1]) ["name"] "text") = [].
Proof.
  apply (validate_non_map_response (VList [VInt 1]) ["name"] "text");
    [intros d; discriminate|vm_compute; congruence].
Defined.

End HttpApiFacts.

(** ** More on the cache *)

Section CacheCompositionFacts.
Import Cache Host Footprint.

Implicit Types store : gmap string entry.

(** Whether a put succeeds depends on its clock reading and its TTL,
    not on the store. *)
Lemma cache_data_success_store now now' key v ttl_seconds store store' :
  (cache_data now now' key v ttl_seconds store).1
  = (cache_data now now' key v ttl_seconds store').1.
Proof.
  unfold cache_data. by destruct (d ← timedelta ttl_seconds; datetime_add now d).
Qed.

(** X9. The last write wins: a successful put on a key makes an
    earlier put on that key as if it had not happened, and a following
    get returns the later value while its expiry has not passed and
    absent after, never the earlier value. *)
Theorem cache_overwrite (now1 now1' now2 now2' t : Z) (key : string)
    (v1 v2 : value) (ttl1 ttl2 : Z) (store : gmap string entry) :
  (cache_data now2 now2' key v2 ttl2 store).1 = true →
  let first := (cache_data now1 now1' key v1 ttl1 store).2 in
  let second := (cache_data now2 now2' key v2 ttl2 first).2 in
  second = (cache_data now2 now2' key v2 ttl2 store).2
  ∧ ((get_cached_data t key second).1 = Some v2
     ∨ (get_cached_data t key second).1 = None).
Proof.
  cbn zeta. unfold cache_data.
  destruct (d ← timedelta ttl2; datetime_add now2 d) as [x2|e2]; [|done].
  intros _. simpl.
  assert (<[key := Entry v2 x2 now2']>
            (match d ← timedelta ttl1; datetime_add now1 d with
             | Ok x1 => (true, <[key := Entry v1 x1 now1']> store)
             | Raise _ => (false, store)
             end).2
          = <[key := Entry v2 x2 now2']> store) as ->.
  { destruct (d ← timedelta ttl1; datetime_add now1 d); simpl; [|done].
    apply insert_insert_eq. }
  split; [done|].
  unfold get_cached_data. rewrite lookup_insert_eq. simpl.
  destruct (t >? x2); [right|by left]. by destruct (dict_del _ _).
Qed.

Lemma cache_overwrite_witness :
  (get_cached_data Samples.t2026 "k"
     (cache_data Samples.t2026 Samples.t2026 "k" (VInt 2) 60
        (cache_data Samples.t2026 Samples.t2026 "k" (VInt 1) 60 ∅).2).2).1
  = Some (VInt 2)
  ∨ (get_cached_data Samples.t2026 "k"
       (cache_data Samples.t2026 Samples.t2026 "k" (VInt 2) 60
          (cache_data Samples.t2026 Samples.t2026 "k" (VInt 1) 60 ∅).2).2).1
    = None.
Proof.
  exact (proj2 (cache_overwrite Samples.t2026 Samples.t2026 Samples.t2026
    Samples.t2026 Samples.t2026 "k" (VInt 1) (VInt 2) 60 60 ∅ eq_refl)).
Defined.

(** One call leaves alone every key it does not touch. *)
Lemma dispatch_frame now now' c p key :
  touches key c = false →
  cache_store (dispatch now now' c p).2 !! key = cache_store p !! key.
Proof.
  destruct c as [key' v ttl|key'|[pattern|]|src m]; intros Hk; simpl in Hk;
    unfold dispatch; try done.
  - apply bool_decide_eq_false in Hk. unfold cache_data.
    destruct (d ← timedelta ttl; datetime_add now d); simpl; [|done].
    by apply lookup_insert_ne.
  - apply bool_decide_eq_false in Hk. unfold get_cached_data, dict_del.
    destruct (cache_store p !! key') as [e|]; [|done].
    destruct (now >? expires_at e); simpl; [|done]. by apply lookup_delete_ne.
  - rewrite clear_cache_pattern. simpl.
    destruct (cache_store p !! key) as [e|] eqn:He.
    + apply map_lookup_filter_Some. split; [done|].
      unfold matches. simpl. congruence.
    + apply map_lookup_filter_None. by left.
Qed.

(** X10. There is no sweep: whatever puts and gets on other keys,
    clears with patterns the key does not contain, and extractions are
    made, and at whatever clock readings, the entry under a key stays
    as it is, expired or not.  Only a get or a put on the key itself
    and a clear that matches it can remove or replace it. *)
Theorem untouched_entry_stays (key : string) (calls : list (Z * Z * call))
    (p : process) :
  Forall (λ c, touches key c.2 = false) calls →
  cache_store (dispatch_all calls p) !! key = cache_store p !! key.
Proof.
  revert p. induction calls as [|[[now now'] c] rest IH]; intros p Hall; [done|].
  apply Forall_cons in Hall as [Hc Hrest]. simpl.
  rewrite (IH _ Hrest). by apply dispatch_frame.
Qed.

Lemma untouched_entry_stays_witness :
  cache_store (dispatch_all
    [(Samples.t2026 + 1, 0, GetCachedData "weather_london");
     (Samples.t2026 + 2, 0, ClearCache (Some "forecast_"));
     (Samples.t2026 + 3, 0, CacheData "x" (VInt 0) 5)]
    (Process Samples.three_keys None)) !! "weather_paris"
  = Samples.three_keys !! "weather_paris".
Proof.
  apply (untouched_entry_stays "weather_paris").
  repeat constructor.
Defined.

(** Cached data that is [None] cannot be told from a miss by the
    caller: the get is a hit, returns [None], and the key stays. *)
Example cached_null_looks_absent :
  let store := (cache_data Samples.t2026 Samples.t2026 "k" VNone 60 ∅).2 in
  returned (get_cached_data Samples.t2026 "k" store).1 = VNone
  ∧ is_Some ((get_cached_data Samples.t2026 "k" store).2 !! "k").
Proof. split; [reflexivity|]. vm_compute. eauto. Qed.

(** X11. Where the data cached under a key is not [None]: once a get
    of the key returns [None] to its caller, the key is not in the
    store, and every later get of it, at any clock reading, returns
    [None] and changes nothing, until the key is put again. *)
Theorem absent_stays_absent (now now2 : Z) (key : string)
    (store : gmap string entry) :
  (∀ e, store !! key = Some e → data e ≠ VNone) →
  returned (get_cached_data now key store).1 = VNone →
  (get_cached_data now key store).2 !! key = None
  ∧ get_cached_data now2 key (get_cached_data now key store).2
    = (None, (get_cached_data now key store).2)
  ∧ returned (get_cached_data now2 key (get_cached_data now key store).2).1
    = VNone.
Proof.
  intros Hdata Habsent.
  assert ((get_cached_data now key store).2 !! key = None) as Hgone.
  { revert Habsent. unfold get_cached_data, dict_del.
    destruct (store !! key) as [e|] eqn:He; [|done].
    destruct (now >? expires_at e); simpl.
    - intros _. apply lookup_delete_eq.
    - intros Hnull. by destruct (Hdata e eq_refl). }
  split; [done|]. by rewrite (get_cached_data_miss now2 key _ Hgone).
Qed.

Lemma absent_stays_absent_witness :
  get_cached_data 0 "weather_paris"
    (get_cached_data (Samples.t2026 + 1) "weather_paris" Samples.three_keys).2
  = (None, (get_cached_data (Samples.t2026 + 1) "weather_paris" Samples.three_keys).2).
Proof.
  refine (proj1 (proj2 (absent_stays_absent (Samples.t2026 + 1) 0 "weather_paris"
                  Samples.three_keys _ eq_refl))).
  intros e He. vm_compute in He. injection He as <-. discriminate.
Defined.

(** X12. Clearing is idempotent: a second clear with the same pattern,
    or with none, removes nothing and returns 0. *)
Theorem clear_cache_twice (pattern : option string) (store : gmap string entry) :
  clear_cache pattern (clear_cache pattern store).2
  = (0%nat, (clear_cache pattern store).2).
Proof.
  destruct pattern as [p|]; [|done].
  rewrite !clear_cache_pattern. simpl. f_equal.
  - apply map_size_empty_iff, map_empty_filter.
    intros k e [_ Hn]%map_lookup_filter_Some Hm. by apply Hn.
  - apply map_filter_id. by intros k e [_ Hn]%map_lookup_filter_Some.
Qed.

End CacheCompositionFacts.

(** ** More on the extractor *)

Section ExtractMoreFacts.
Import Extract Footprint.

(** A call that returns has bound every field to its own value. *)
Lemma extract_data_fields_inv source_data (field_mapping : gmap string string) r :
  extract_data_fields source_data field_mapping = Ok r →
  r = field_value source_data <$> field_mapping
  ∧ ∀ new_field source_path, field_mapping !! new_field = Some source_path →
      is_ok (extract_field source_data source_path) = true.
Proof.
  intros Hr.
  assert (∀ new_field source_path, field_mapping !! new_field = Some source_path →
    is_ok (extract_field source_data source_path) = true) as Hall.
  { intros f p Hf. destruct (is_ok (extract_field source_data p)) eqn:Hok; [done|].
    rewrite (extract_data_fields_raise _ _ f p Hf Hok) in Hr. done. }
  split; [|done]. rewrite (extract_data_fields_ok _ _ Hall) in Hr. by injection Hr.
Qed.

(** X13. Fields are resolved independently.  When a call returns,
    dropping a field from the mapping drops its entry from the result
    and changes no other entry, and adding a field whose path raises
    nothing adds its entry and changes no other. *)
Theorem extract_fields_independent (source_data : value)
    (field_mapping : gmap string string) (r : gmap string value)
    (new_field source_path : string) :
  extract_data_fields source_data field_mapping = Ok r →
  extract_data_fields source_data (delete new_field field_mapping)
  = Ok (delete new_field r)
  ∧ (∀ v, extract_field source_data source_path = Ok v →
       extract_data_fields source_data (<[new_field := source_path]> field_mapping)
       = Ok (<[new_field := v]> r)).
Proof.
  intros Hr. apply extract_data_fields_inv in Hr as [-> Hall]. split.
  - rewrite extract_data_fields_ok.
    + by rewrite fmap_delete.
    + intros f p [_ Hf]%lookup_delete_Some. by eapply Hall.
  - intros v Hv. rewrite extract_data_fields_ok.
    + rewrite fmap_insert. unfold field_value at 1. by rewrite Hv.
    + intros f p [[_ <-]|[_ Hf]]%lookup_insert_Some; [by rewrite Hv|by eapply Hall].
Qed.

Lemma extract_fields_independent_witness :
  extract_data_fields Samples.paris (delete "city" Samples.paris_mapping)
  = Ok (delete "city" Samples.paris_result).
Proof.
  refine (proj1 (extract_fields_independent Samples.paris Samples.paris_mapping
    Samples.paris_result "city" "name" _)).
  vm_compute. reflexivity.
Defined.

Lemma spec_step_childless source segment :
  childless source → spec_step source segment = None.
Proof.
  unfold spec_step. destruct source; simpl; intros Hc; subst;
    destruct (parse_index segment); try done.
  by destruct (_ && _).
Qed.

(** X14. Extracting from a value with nothing inside, an empty map, an
    empty sequence or a scalar, binds every field to null: provided no
    path holds a digit string that [int] rejects, one that is not a
    decimal numeral or has more than 4300 digits, the call returns one
    null per field and does not raise. *)
Theorem extract_from_childless_source (source_data : value)
    (field_mapping : gmap string string) :
  childless source_data →
  (∀ new_field source_path, field_mapping !! new_field = Some source_path →
     decimal_path source_path = true) →
  extract_data_fields source_data field_mapping
  = Ok ((λ _, VNone) <$> field_mapping).
Proof.
  intros Hc Hdec. rewrite (extract_refines _ _ Hdec). f_equal.
  unfold spec_extract. apply map_fmap_ext. intros f p _.
  unfold spec_resolve. pose proof (split_nonempty "." p) as Hne.
  destruct (PyStr.split "." p) as [|segment rest]; [done|]. simpl.
  by rewrite spec_step_childless.
Qed.

Lemma extract_from_childless_source_witness :
  extract_data_fields (VDict ∅) Samples.paris_mapping
  = Ok ((λ _, VNone) <$> Samples.paris_mapping).
Proof.
  apply extract_from_childless_source; [reflexivity|].
  intros f p Hf.
  assert (map_Forall (λ _ p, decimal_path p = true) Samples.paris_mapping) as Hall.
  { apply map_Forall_to_list. vm_compute. repeat constructor. }
  exact (Hall f p Hf).
Defined.

End ExtractMoreFacts.

(** ** Secrets *)

Section SecretsFacts.
Import Host Secrets.

Lemma allowed_secret_names secret_name :
  secret_name ∈ ALLOWED_SECRETS
  ↔ secret_name = "OWM-API-KEY" ∨ secret_name = "OPENAI-API-KEY".
Proof.
  unfold ALLOWED_SECRETS. rewrite !elem_of_cons, elem_of_nil. tauto.
Qed.

(** X15. [get_secret] gives out nothing beyond the allowlist: it
    returns a value only for the names "OWM-API-KEY" and
    "OPENAI-API-KEY", and then what the Key Vault service holds; for
    every other name it raises [SecurityError] whatever the service
    would answer; a failure of the service for an allowed name is
    raised as [RuntimeError]. *)
Theorem get_secret_allowlist (key_vault : string → option string)
    (secret_name : string) :
  (∀ secret_value, get_secret key_vault secret_name = Secret secret_value →
     (secret_name = "OWM-API-KEY" ∨ secret_name = "OPENAI-API-KEY")
     ∧ key_vault secret_name = Some secret_value)
  ∧ (secret_name ≠ "OWM-API-KEY" → secret_name ≠ "OPENAI-API-KEY" →
       get_secret key_vault secret_name = RaiseSecurityError)
  ∧ (get_secret key_vault secret_name = RaiseRuntimeError →
       secret_name ∈ ALLOWED_SECRETS ∧ key_vault secret_name = None).
Proof.
  unfold get_secret. case_bool_decide as Hin.
  - pose proof (proj1 (allowed_secret_names secret_name) Hin) as Hname.
    split; [|split].
    + intros v Hv. split; [done|]. destruct (key_vault secret_name); congruence.
    + intros H1 H2. by destruct Hname.
    + intros Hr. split; [done|]. by destruct (key_vault secret_name).
  - by repeat split.
Qed.

Lemma dispatch_openai_key now now' c p :
  openai_key (dispatch now now' c p).2 = openai_key p.
Proof.
  destruct c; unfold dispatch; try done.
  - by destruct (Cache.cache_data _ _ _ _ _ _).
  - by destruct (Cache.get_cached_data _ _ _).
  - by destruct (Cache.clear_cache _ _).
Qed.

Lemma dispatch_all_openai_key calls p :
  openai_key (dispatch_all calls p) = openai_key p.
Proof.
  revert p. induction calls as [|[[now now'] c] rest IH]; intros p; [done|].
  simpl. by rewrite IH, dispatch_openai_key.
Qed.

(** X16. The OpenAI key is fetched once: after a call of
    [_get_openai_key] has returned a key, every later call returns that
    key and leaves the instance as it is, whatever tool calls were made
    in between and whatever the Key Vault service would answer then;
    a call that failed has kept nothing. *)
Theorem openai_key_fetched_once (key_vault key_vault' : string → option string)
    (p : process) (calls : list (Z * Z * call)) (k : string) :
  (_get_openai_key key_vault p).1 = Some k →
  let later := dispatch_all calls (_get_openai_key key_vault p).2 in
  _get_openai_key key_vault' later = (Some k, later).
Proof.
  intros Hk later.
  assert (openai_key later = Some k) as Hkept.
  { subst later. rewrite dispatch_all_openai_key. revert Hk.
    unfold _get_openai_key. destruct (openai_key p) as [k0|] eqn:Hp; simpl.
    - by intros [= <-].
    - destruct (key_vault "OPENAI-API-KEY"); simpl; [by intros [= <-]|done]. }
  unfold _get_openai_key. by rewrite Hkept.
Qed.

Lemma openai_key_fetched_once_witness :
  _get_openai_key (λ _, None)
    (dispatch_all [(0, 0, ClearCache None)]
       (_get_openai_key (λ _, Some "sk-1") (Process ∅ None)).2)
  = (Some "sk-1",
     dispatch_all [(0, 0, ClearCache None)]
       (_get_openai_key (λ _, Some "sk-1") (Process ∅ None)).2).
Proof.
  exact (openai_key_fetched_once (λ _, Some "sk-1") (λ _, None) (Process ∅ None)
           [(0, 0, ClearCache None)] "sk-1" eq_refl).
Defined.

End SecretsFacts.
